(** * Marshalling of BoringCrypto SHA contexts (crypto/internal/boring/sha.go)

    A shallow embedding of the streaming adapters and of the state codec of
    [sha.go], and the properties of the binary snapshot format. *)

From Stdlib Require Import ZArith Lia String.
From Stdlib Require Strings.Byte.
From coqutil Require Import Byte.
From stdpp Require Import base option list.

Local Open Scope Z_scope.

(** ** Go values *)

(** A Go call either returns or panics. *)
Inductive result (A : Type) : Type :=
| Ok (a : A)
| Panic (msg : string).
Arguments Ok {A} a.
Arguments Panic {A} msg.

#[global] Instance result_ret : MRet result := @Ok.
#[global] Instance result_bind : MBind result :=
  λ A B f m, match m with Ok a => f a | Panic msg => Panic msg end.

(** The Go [error] interface: [nil] or a message made by [errors.New]. *)
Definition error : Type := option string.
Definition nil_error : error := None.
Definition errors_New (msg : string) : error := Some msg.

#[global] Instance byte_eq_dec : EqDecision byte := Byte.byte_eq_dec.

(** [len(b)] as a Go [int]. *)
Definition len {A} (b : list A) : Z := Z.of_nat (length b).

(** Unsigned conversions and shifts wrap at the width of the type. *)
Definition uint32 (z : Z) : Z := z mod 2 ^ 32.
Definition uint64 (z : Z) : Z := z mod 2 ^ 64.
Definition shl32 (a k : Z) : Z := uint32 (Z.shiftl a k).
Definition shl64 (a k : Z) : Z := uint64 (Z.shiftl a k).

(** [b[i]]: panics out of range. *)
Definition index (b : list byte) (i : nat) : result byte :=
  match b !! i with
  | Some v => Ok v
  | None => Panic "index out of range"
  end.

(** [b[k:]]: panics when [k > len(b)]. *)
Definition slice_from (b : list byte) (k : nat) : result (list byte) :=
  if decide (k ≤ length b)%nat then Ok (drop k b) else Panic "slice bounds out of range".

(** [a[:k]] on an array or a slice whose capacity is its length. *)
Definition slice_to (a : list byte) (k : Z) : result (list byte) :=
  if decide (0 ≤ k ≤ len a) then Ok (take (Z.to_nat k) a) else Panic "slice bounds out of range".

(** [make([]byte, 0, cap)] gives an empty slice over [cap] zero bytes.  The
    marshalers only ever append to it within that capacity, so the bytes
    between its length and its capacity are still zero when they reslice:
    [b[:n]] panics when [n] exceeds the capacity and otherwise exposes zeros. *)
Definition reslice (b : list byte) (n cap : Z) : result (list byte) :=
  if decide (0 ≤ n ≤ cap) then
    Ok (take (Z.to_nat n) (b ++ replicate (Z.to_nat cap - length b) Byte.x00))
  else Panic "slice bounds out of range".

(** [copy(dst, src)]: the new contents of [dst] and the number of bytes copied. *)
Definition copy (dst src : list byte) : list byte * nat :=
  let n := Nat.min (length dst) (length src) in
  (take n src ++ drop n dst, n).

(** ** Byte-order helpers (sha.go:612-655) *)

Definition putUint64 (x : list byte) (s : Z) : result (list byte) :=
  _ ← index x 7;
  let x := <[0%nat := byte.of_Z (Z.shiftr s 56)]> x in
  let x := <[1%nat := byte.of_Z (Z.shiftr s 48)]> x in
  let x := <[2%nat := byte.of_Z (Z.shiftr s 40)]> x in
  let x := <[3%nat := byte.of_Z (Z.shiftr s 32)]> x in
  let x := <[4%nat := byte.of_Z (Z.shiftr s 24)]> x in
  let x := <[5%nat := byte.of_Z (Z.shiftr s 16)]> x in
  let x := <[6%nat := byte.of_Z (Z.shiftr s 8)]> x in
  let x := <[7%nat := byte.of_Z s]> x in
  Ok x.

Definition putUint32 (x : list byte) (s : Z) : result (list byte) :=
  _ ← index x 3;
  let x := <[0%nat := byte.of_Z (Z.shiftr s 24)]> x in
  let x := <[1%nat := byte.of_Z (Z.shiftr s 16)]> x in
  let x := <[2%nat := byte.of_Z (Z.shiftr s 8)]> x in
  let x := <[3%nat := byte.of_Z s]> x in
  Ok x.

Definition appendUint64 (b : list byte) (x : Z) : result (list byte) :=
  let a := replicate 8 Byte.x00 in
  a ← putUint64 a x;
  Ok (b ++ a).

Definition appendUint32 (b : list byte) (x : Z) : result (list byte) :=
  let a := replicate 4 Byte.x00 in
  a ← putUint32 a x;
  Ok (b ++ a).

Definition consumeUint64 (b : list byte) : result (list byte * Z) :=
  _ ← index b 7;
  b7 ← index b 7; b6 ← index b 6; b5 ← index b 5; b4 ← index b 4;
  b3 ← index b 3; b2 ← index b 2; b1 ← index b 1; b0 ← index b 0;
  let x :=
    Z.lor (Z.lor (Z.lor (Z.lor (Z.lor (Z.lor (Z.lor
      (byte.unsigned b7)
      (shl64 (byte.unsigned b6) 8))
      (shl64 (byte.unsigned b5) 16))
      (shl64 (byte.unsigned b4) 24))
      (shl64 (byte.unsigned b3) 32))
      (shl64 (byte.unsigned b2) 40))
      (shl64 (byte.unsigned b1) 48))
      (shl64 (byte.unsigned b0) 56) in
  b ← slice_from b 8;
  Ok (b, x).

Definition consumeUint32 (b : list byte) : result (list byte * Z) :=
  _ ← index b 3;
  b3 ← index b 3; b2 ← index b 2; b1 ← index b 1; b0 ← index b 0;
  let x :=
    Z.lor (Z.lor (Z.lor
      (byte.unsigned b3)
      (shl32 (byte.unsigned b2) 8))
      (shl32 (byte.unsigned b1) 16))
      (shl32 (byte.unsigned b0) 24) in
  b ← slice_from b 4;
  Ok (b, x).

(** ** Data model (sha.go:122-127, 308-313, 505-510) *)

(** The three context layouts [sha1Ctx], [sha256Ctx] and [sha512Ctx] differ in
    the sizes of their arrays and the width of their words only: [h] is
    [[5]uint32], [[8]uint32] or [[8]uint64], [nl] and [nh] are [uint32] or
    [uint64], [x] is [[64]byte] or [[128]byte], [nx] is [uint32]. *)
Record shaCtx : Type := {
  h : list Z;
  nl : Z;
  nh : Z;
  x : list byte;
  nx : Z
}.

Definition sha1Ctx : Type := shaCtx.
Definition sha256Ctx : Type := shaCtx.
Definition sha512Ctx : Type := shaCtx.

Definition set_h (d : shaCtx) (i : nat) (v : Z) : shaCtx :=
  {| h := <[i := v]> (h d); nl := nl d; nh := nh d; x := x d; nx := nx d |}.
Definition set_nl (d : shaCtx) (v : Z) : shaCtx :=
  {| h := h d; nl := v; nh := nh d; x := x d; nx := nx d |}.
Definition set_nh (d : shaCtx) (v : Z) : shaCtx :=
  {| h := h d; nl := nl d; nh := v; x := x d; nx := nx d |}.
Definition set_x (d : shaCtx) (v : list byte) : shaCtx :=
  {| h := h d; nl := nl d; nh := nh d; x := v; nx := nx d |}.
Definition set_nx (d : shaCtx) (v : Z) : shaCtx :=
  {| h := h d; nl := nl d; nh := nh d; x := x d; nx := v |}.

(** The adapters [sha1Hash], [sha224Hash], ... hold the native context, seen
    through the layouts above, and an output array of the digest size.  The
    layouts are the codec's view of the native context: they are all that
    [MarshalBinary] reads and [UnmarshalBinary] writes.  What the primitive
    library keeps in the native context besides them (for the SHA-2 variants
    the digest length, which [Init] records and [Final] reads) is not part of
    the record; it is settled once the adapter has been [Reset], which is why
    the properties that call [Sum] on the receiver of [UnmarshalBinary] take a
    receiver that has been [Reset]. *)
Record shaHash : Type := {
  ctx : shaCtx;
  out : list byte
}.

Definition sha1Hash : Type := shaHash.
Definition sha224Hash : Type := shaHash.
Definition sha256Hash : Type := shaHash.
Definition sha384Hash : Type := shaHash.
Definition sha512Hash : Type := shaHash.

Definition set_ctx (s : shaHash) (d : shaCtx) : shaHash := {| ctx := d; out := out s |}.
Definition set_out (s : shaHash) (o : list byte) : shaHash := {| ctx := ctx s; out := o |}.

(** The five algorithm variants. *)
Inductive alg : Type := Sha1 | Sha224 | Sha256 | Sha384 | Sha512.

#[global] Instance alg_eq_dec : EqDecision alg.
Proof. solve_decision. Defined.

(** The primitive library gives, per variant, the triple
    [Init(ctx)], [Update(ctx, data, len) -> int], [Final(out, ctx) -> int]:
    each takes the context it is pointed at and leaves the context it has
    written; [Final] also leaves the digest. *)
Record Primitive : Type := {
  Init : shaCtx → shaCtx;
  Update : shaCtx → list byte → Z * shaCtx;
  Final : shaCtx → Z * list byte * shaCtx
}.

(** ** State codec (sha.go:170-210, 302-399, 512-610) *)

Definition sha1Magic : list byte := [Byte.x73; Byte.x68; Byte.x61; Byte.x01].
Definition sha1MarshaledSize : Z := len sha1Magic + 5 * 4 + 64 + 8.

Definition magic224 : list byte := [Byte.x73; Byte.x68; Byte.x61; Byte.x02].
Definition magic256 : list byte := [Byte.x73; Byte.x68; Byte.x61; Byte.x03].
Definition marshaledSize256 : Z := len magic256 + 8 * 4 + 64 + 8.

Definition magic384 : list byte := [Byte.x73; Byte.x68; Byte.x61; Byte.x04].
Definition magic512_224 : list byte := [Byte.x73; Byte.x68; Byte.x61; Byte.x05].
Definition magic512_256 : list byte := [Byte.x73; Byte.x68; Byte.x61; Byte.x06].
Definition magic512 : list byte := [Byte.x73; Byte.x68; Byte.x61; Byte.x07].
Definition marshaledSize512 : Z := len magic512 + 8 * 8 + 128 + 8.

(** [d.h[i]] of an array. *)
Definition word_at (a : list Z) (i : nat) : Z := nth i a 0.

Definition sha1Hash_MarshalBinary (h0 : sha1Hash) : result (list byte * error) :=
  let d := ctx h0 in
  let b := [] in
  let b := b ++ sha1Magic in
  b ← appendUint32 b (word_at (h d) 0);
  b ← appendUint32 b (word_at (h d) 1);
  b ← appendUint32 b (word_at (h d) 2);
  b ← appendUint32 b (word_at (h d) 3);
  b ← appendUint32 b (word_at (h d) 4);
  xs ← slice_to (x d) (nx d);
  let b := b ++ xs in
  b ← reslice b (len b + len (x d) - nx d) sha1MarshaledSize;
  b ← appendUint64 b (Z.lor (Z.shiftr (uint64 (nl d)) 3) (shl64 (uint64 (nh d)) 29));
  Ok (b, nil_error).

Definition sha1Hash_UnmarshalBinary (h0 : sha1Hash) (b : list byte) : result (sha1Hash * error) :=
  if bool_decide (len b < len sha1Magic)
     || negb (bool_decide (take (length sha1Magic) b = sha1Magic)) then
    Ok (h0, errors_New "crypto/sha1: invalid hash state identifier")
  else if negb (bool_decide (len b = sha1MarshaledSize)) then
    Ok (h0, errors_New "crypto/sha1: invalid hash state size")
  else
    let d := ctx h0 in
    b ← slice_from b (length sha1Magic);
    '(b, v) ← consumeUint32 b; let d := set_h d 0 v in
    '(b, v) ← consumeUint32 b; let d := set_h d 1 v in
    '(b, v) ← consumeUint32 b; let d := set_h d 2 v in
    '(b, v) ← consumeUint32 b; let d := set_h d 3 v in
    '(b, v) ← consumeUint32 b; let d := set_h d 4 v in
    let '(dx, k) := copy (x d) b in
    let d := set_x d dx in
    b ← slice_from b k;
    '(b, n) ← consumeUint64 b;
    let d := set_nl d (uint32 (shl64 n 3)) in
    let d := set_nh d (uint32 (Z.shiftr n 29)) in
    let d := set_nx d (uint32 n mod 64) in
    Ok (set_ctx h0 d, nil_error).

Definition sha224Hash_MarshalBinary (h0 : sha224Hash) : result (list byte * error) :=
  let d := ctx h0 in
  let b := [] in
  let b := b ++ magic224 in
  b ← appendUint32 b (word_at (h d) 0);
  b ← appendUint32 b (word_at (h d) 1);
  b ← appendUint32 b (word_at (h d) 2);
  b ← appendUint32 b (word_at (h d) 3);
  b ← appendUint32 b (word_at (h d) 4);
  b ← appendUint32 b (word_at (h d) 5);
  b ← appendUint32 b (word_at (h d) 6);
  b ← appendUint32 b (word_at (h d) 7);
  xs ← slice_to (x d) (nx d);
  let b := b ++ xs in
  b ← reslice b (len b + len (x d) - nx d) marshaledSize256;
  b ← appendUint64 b (Z.lor (Z.shiftr (uint64 (nl d)) 3) (shl64 (uint64 (nh d)) 29));
  Ok (b, nil_error).

Definition sha256Hash_MarshalBinary (h0 : sha256Hash) : result (list byte * error) :=
  let d := ctx h0 in
  let b := [] in
  let b := b ++ magic256 in
  b ← appendUint32 b (word_at (h d) 0);
  b ← appendUint32 b (word_at (h d) 1);
  b ← appendUint32 b (word_at (h d) 2);
  b ← appendUint32 b (word_at (h d) 3);
  b ← appendUint32 b (word_at (h d) 4);
  b ← appendUint32 b (word_at (h d) 5);
  b ← appendUint32 b (word_at (h d) 6);
  b ← appendUint32 b (word_at (h d) 7);
  xs ← slice_to (x d) (nx d);
  let b := b ++ xs in
  b ← reslice b (len b + len (x d) - nx d) marshaledSize256;
  b ← appendUint64 b (Z.lor (Z.shiftr (uint64 (nl d)) 3) (shl64 (uint64 (nh d)) 29));
  Ok (b, nil_error).

Definition sha224Hash_UnmarshalBinary (h0 : sha224Hash) (b : list byte) : result (sha224Hash * error) :=
  if bool_decide (len b < len magic224)
     || negb (bool_decide (take (length magic224) b = magic224)) then
    Ok (h0, errors_New "crypto/sha256: invalid hash state identifier")
  else if negb (bool_decide (len b = marshaledSize256)) then
    Ok (h0, errors_New "crypto/sha256: invalid hash state size")
  else
    let d := ctx h0 in
    b ← slice_from b (length magic224);
    '(b, v) ← consumeUint32 b; let d := set_h d 0 v in
    '(b, v) ← consumeUint32 b; let d := set_h d 1 v in
    '(b, v) ← consumeUint32 b; let d := set_h d 2 v in
    '(b, v) ← consumeUint32 b; let d := set_h d 3 v in
    '(b, v) ← consumeUint32 b; let d := set_h d 4 v in
    '(b, v) ← consumeUint32 b; let d := set_h d 5 v in
    '(b, v) ← consumeUint32 b; let d := set_h d 6 v in
    '(b, v) ← consumeUint32 b; let d := set_h d 7 v in
    let '(dx, k) := copy (x d) b in
    let d := set_x d dx in
    b ← slice_from b k;
    '(b, n) ← consumeUint64 b;
    let d := set_nl d (uint32 (shl64 n 3)) in
    let d := set_nh d (uint32 (Z.shiftr n 29)) in
    let d := set_nx d (uint32 n mod 64) in
    Ok (set_ctx h0 d, nil_error).

Definition sha256Hash_UnmarshalBinary (h0 : sha256Hash) (b : list byte) : result (sha256Hash * error) :=
  if bool_decide (len b < len magic256)
     || negb (bool_decide (take (length magic256) b = magic256)) then
    Ok (h0, errors_New "crypto/sha256: invalid hash state identifier")
  else if negb (bool_decide (len b = marshaledSize256)) then
    Ok (h0, errors_New "crypto/sha256: invalid hash state size")
  else
    let d := ctx h0 in
    b ← slice_from b (length magic256);
    '(b, v) ← consumeUint32 b; let d := set_h d 0 v in
    '(b, v) ← consumeUint32 b; let d := set_h d 1 v in
    '(b, v) ← consumeUint32 b; let d := set_h d 2 v in
    '(b, v) ← consumeUint32 b; let d := set_h d 3 v in
    '(b, v) ← consumeUint32 b; let d := set_h d 4 v in
    '(b, v) ← consumeUint32 b; let d := set_h d 5 v in
    '(b, v) ← consumeUint32 b; let d := set_h d 6 v in
    '(b, v) ← consumeUint32 b; let d := set_h d 7 v in
    let '(dx, k) := copy (x d) b in
    let d := set_x d dx in
    b ← slice_from b k;
    '(b, n) ← consumeUint64 b;
    let d := set_nl d (uint32 (shl64 n 3)) in
    let d := set_nh d (uint32 (Z.shiftr n 29)) in
    let d := set_nx d (uint32 n mod 64) in
    Ok (set_ctx h0 d, nil_error).

Definition sha384Hash_MarshalBinary (h0 : sha384Hash) : result (list byte * error) :=
  let d := ctx h0 in
  let b := [] in
  let b := b ++ magic384 in
  b ← appendUint64 b (word_at (h d) 0);
  b ← appendUint64 b (word_at (h d) 1);
  b ← appendUint64 b (word_at (h d) 2);
  b ← appendUint64 b (word_at (h d) 3);
  b ← appendUint64 b (word_at (h d) 4);
  b ← appendUint64 b (word_at (h d) 5);
  b ← appendUint64 b (word_at (h d) 6);
  b ← appendUint64 b (word_at (h d) 7);
  xs ← slice_to (x d) (nx d);
  let b := b ++ xs in
  b ← reslice b (len b + len (x d) - nx d) marshaledSize512;
  b ← appendUint64 b (Z.lor (Z.shiftr (nl d) 3) (shl64 (nh d) 61));
  Ok (b, nil_error).

Definition sha512Hash_MarshalBinary (h0 : sha512Hash) : result (list byte * error) :=
  let d := ctx h0 in
  let b := [] in
  let b := b ++ magic512 in
  b ← appendUint64 b (word_at (h d) 0);
  b ← appendUint64 b (word_at (h d) 1);
  b ← appendUint64 b (word_at (h d) 2);
  b ← appendUint64 b (word_at (h d) 3);
  b ← appendUint64 b (word_at (h d) 4);
  b ← appendUint64 b (word_at (h d) 5);
  b ← appendUint64 b (word_at (h d) 6);
  b ← appendUint64 b (word_at (h d) 7);
  xs ← slice_to (x d) (nx d);
  let b := b ++ xs in
  b ← reslice b (len b + len (x d) - nx d) marshaledSize512;
  b ← appendUint64 b (Z.lor (Z.shiftr (nl d) 3) (shl64 (nh d) 61));
  Ok (b, nil_error).

Definition sha384Hash_UnmarshalBinary (h0 : sha384Hash) (b : list byte) : result (sha384Hash * error) :=
  if bool_decide (len b < len magic512) then
    Ok (h0, errors_New "crypto/sha512: invalid hash state identifier")
  else if negb (bool_decide (take (length magic384) b = magic384)) then
    Ok (h0, errors_New "crypto/sha512: invalid hash state identifier")
  else if negb (bool_decide (len b = marshaledSize512)) then
    Ok (h0, errors_New "crypto/sha512: invalid hash state size")
  else
    let d := ctx h0 in
    b ← slice_from b (length magic512);
    '(b, v) ← consumeUint64 b; let d := set_h d 0 v in
    '(b, v) ← consumeUint64 b; let d := set_h d 1 v in
    '(b, v) ← consumeUint64 b; let d := set_h d 2 v in
    '(b, v) ← consumeUint64 b; let d := set_h d 3 v in
    '(b, v) ← consumeUint64 b; let d := set_h d 4 v in
    '(b, v) ← consumeUint64 b; let d := set_h d 5 v in
    '(b, v) ← consumeUint64 b; let d := set_h d 6 v in
    '(b, v) ← consumeUint64 b; let d := set_h d 7 v in
    let '(dx, k) := copy (x d) b in
    let d := set_x d dx in
    b ← slice_from b k;
    '(b, n) ← consumeUint64 b;
    let d := set_nl d (shl64 n 3) in
    let d := set_nh d (Z.shiftr n 61) in
    let d := set_nx d (uint32 n mod 128) in
    Ok (set_ctx h0 d, nil_error).

Definition sha512Hash_UnmarshalBinary (h0 : sha512Hash) (b : list byte) : result (sha512Hash * error) :=
  if bool_decide (len b < len magic512) then
    Ok (h0, errors_New "crypto/sha512: invalid hash state identifier")
  else if negb (bool_decide (take (length magic512) b = magic512)) then
    Ok (h0, errors_New "crypto/sha512: invalid hash state identifier")
  else if negb (bool_decide (len b = marshaledSize512)) then
    Ok (h0, errors_New "crypto/sha512: invalid hash state size")
  else
    let d := ctx h0 in
    b ← slice_from b (length magic512);
    '(b, v) ← consumeUint64 b; let d := set_h d 0 v in
    '(b, v) ← consumeUint64 b; let d := set_h d 1 v in
    '(b, v) ← consumeUint64 b; let d := set_h d 2 v in
    '(b, v) ← consumeUint64 b; let d := set_h d 3 v in
    '(b, v) ← consumeUint64 b; let d := set_h d 4 v in
    '(b, v) ← consumeUint64 b; let d := set_h d 5 v in
    '(b, v) ← consumeUint64 b; let d := set_h d 6 v in
    '(b, v) ← consumeUint64 b; let d := set_h d 7 v in
    let '(dx, k) := copy (x d) b in
    let d := set_x d dx in
    b ← slice_from b k;
    '(b, n) ← consumeUint64 b;
    let d := set_nl d (shl64 n 3) in
    let d := set_nh d (Z.shiftr n 61) in
    let d := set_nx d (uint32 n mod 128) in
    Ok (set_ctx h0 d, nil_error).

(** ** Streaming adapters (sha.go:110-168, 212-300, 401-503) *)

(** [new(sha1Hash)] and the like: the zero value of the adapter. *)
Definition new_sha1Hash : sha1Hash :=
  {| ctx := {| h := replicate 5 0; nl := 0; nh := 0; x := replicate 64 Byte.x00; nx := 0 |};
     out := replicate 20 Byte.x00 |}.
Definition new_sha224Hash : sha224Hash :=
  {| ctx := {| h := replicate 8 0; nl := 0; nh := 0; x := replicate 64 Byte.x00; nx := 0 |};
     out := replicate 28 Byte.x00 |}.
Definition new_sha256Hash : sha256Hash :=
  {| ctx := {| h := replicate 8 0; nl := 0; nh := 0; x := replicate 64 Byte.x00; nx := 0 |};
     out := replicate 32 Byte.x00 |}.
Definition new_sha384Hash : sha384Hash :=
  {| ctx := {| h := replicate 8 0; nl := 0; nh := 0; x := replicate 128 Byte.x00; nx := 0 |};
     out := replicate 48 Byte.x00 |}.
Definition new_sha512Hash : sha512Hash :=
  {| ctx := {| h := replicate 8 0; nl := 0; nh := 0; x := replicate 128 Byte.x00; nx := 0 |};
     out := replicate 64 Byte.x00 |}.

Definition hash_new (v : alg) : shaHash :=
  match v with
  | Sha1 => new_sha1Hash | Sha224 => new_sha224Hash | Sha256 => new_sha256Hash
  | Sha384 => new_sha384Hash | Sha512 => new_sha512Hash
  end.

Section Adapter.

(** The cgo bindings [C._goboringcrypto_SHA1_Init] and the like. *)
Variable C : alg → Primitive.

Definition sha1Hash_Reset (h0 : sha1Hash) : sha1Hash :=
  set_ctx h0 (Init (C Sha1) (ctx h0)).

Definition sha1Hash_Size (h0 : sha1Hash) : Z := 20.
Definition sha1Hash_BlockSize (h0 : sha1Hash) : Z := 64.

Definition sha1Hash_Write (h0 : sha1Hash) (p : list byte) : result (sha1Hash * (Z * error)) :=
  if bool_decide (len p > 0) then
    let '(r, c) := Update (C Sha1) (ctx h0) p in
    if bool_decide (r = 0) then Panic "boringcrypto: SHA1_Update failed"
    else Ok (set_ctx h0 c, (len p, nil_error))
  else Ok (h0, (len p, nil_error)).

Definition sha1Hash_WriteString (h0 : sha1Hash) (s : string) : result (sha1Hash * (Z * error)) :=
  if bool_decide (Z.of_nat (String.length s) > 0) then
    let '(r, c) := Update (C Sha1) (ctx h0) (list_byte_of_string s) in
    if bool_decide (r = 0) then Panic "boringcrypto: SHA1_Update failed"
    else Ok (set_ctx h0 c, (Z.of_nat (String.length s), nil_error))
  else Ok (h0, (Z.of_nat (String.length s), nil_error)).

Definition sha1Hash_WriteByte (h0 : sha1Hash) (c : byte) : result (sha1Hash * error) :=
  let '(r, c) := Update (C Sha1) (ctx h0) [c] in
  if bool_decide (r = 0) then Panic "boringcrypto: SHA1_Update failed"
  else Ok (set_ctx h0 c, nil_error).

(** [h := *h0] copies the adapter; [Final] works on the copy, the receiver
    is returned as it was. *)
Definition sha1Hash_sum (h0 : sha1Hash) (dst : list byte) : result (sha1Hash * list byte) :=
  let h := h0 in
  let '(r, digest, c) := Final (C Sha1) (ctx h) in
  let h := set_ctx (set_out h digest) c in
  if bool_decide (r = 0) then Panic "boringcrypto: SHA1_Final failed"
  else Ok (h0, dst ++ out h).

Definition sha1Hash_Sum (h0 : sha1Hash) (dst : list byte) : result (sha1Hash * list byte) :=
  sha1Hash_sum h0 dst.

Definition NewSHA1 : sha1Hash :=
  let h := new_sha1Hash in
  sha1Hash_Reset h.

Definition sha224Hash_Reset (h0 : sha224Hash) : sha224Hash :=
  set_ctx h0 (Init (C Sha224) (ctx h0)).

Definition sha224Hash_Size (h0 : sha224Hash) : Z := 224 / 8.
Definition sha224Hash_BlockSize (h0 : sha224Hash) : Z := 64.

Definition sha224Hash_Write (h0 : sha224Hash) (p : list byte) : result (sha224Hash * (Z * error)) :=
  if bool_decide (len p > 0) then
    let '(r, c) := Update (C Sha224) (ctx h0) p in
    if bool_decide (r = 0) then Panic "boringcrypto: SHA224_Update failed"
    else Ok (set_ctx h0 c, (len p, nil_error))
  else Ok (h0, (len p, nil_error)).

Definition sha224Hash_sum (h0 : sha224Hash) (dst : list byte) : result (sha224Hash * list byte) :=
  let h := h0 in
  let '(r, digest, c) := Final (C Sha224) (ctx h) in
  let h := set_ctx (set_out h digest) c in
  if bool_decide (r = 0) then Panic "boringcrypto: SHA224_Final failed"
  else Ok (h0, dst ++ out h).

Definition sha224Hash_Sum (h0 : sha224Hash) (dst : list byte) : result (sha224Hash * list byte) :=
  sha224Hash_sum h0 dst.

Definition NewSHA224 : sha224Hash :=
  let h := new_sha224Hash in
  sha224Hash_Reset h.

Definition sha256Hash_Reset (h0 : sha256Hash) : sha256Hash :=
  set_ctx h0 (Init (C Sha256) (ctx h0)).

Definition sha256Hash_Size (h0 : sha256Hash) : Z := 256 / 8.
Definition sha256Hash_BlockSize (h0 : sha256Hash) : Z := 64.

Definition sha256Hash_Write (h0 : sha256Hash) (p : list byte) : result (sha256Hash * (Z * error)) :=
  if bool_decide (len p > 0) then
    let '(r, c) := Update (C Sha256) (ctx h0) p in
    if bool_decide (r = 0) then Panic "boringcrypto: SHA256_Update failed"
    else Ok (set_ctx h0 c, (len p, nil_error))
  else Ok (h0, (len p, nil_error)).

Definition sha256Hash_WriteString (h0 : sha256Hash) (s : string) : result (sha256Hash * (Z * error)) :=
  if bool_decide (Z.of_nat (String.length s) > 0) then
    let '(r, c) := Update (C Sha256) (ctx h0) (list_byte_of_string s) in
    if bool_decide (r = 0) then Panic "boringcrypto: SHA256_Update failed"
    else Ok (set_ctx h0 c, (Z.of_nat (String.length s), nil_error))
  else Ok (h0, (Z.of_nat (String.length s), nil_error)).

Definition sha256Hash_WriteByte (h0 : sha256Hash) (c : byte) : result (sha256Hash * error) :=
  let '(r, c) := Update (C Sha256) (ctx h0) [c] in
  if bool_decide (r = 0) then Panic "boringcrypto: SHA256_Update failed"
  else Ok (set_ctx h0 c, nil_error).

Definition sha256Hash_sum (h0 : sha256Hash) (dst : list byte) : result (sha256Hash * list byte) :=
  let h := h0 in
  let '(r, digest, c) := Final (C Sha256) (ctx h) in
  let h := set_ctx (set_out h digest) c in
  if bool_decide (r = 0) then Panic "boringcrypto: SHA256_Final failed"
  else Ok (h0, dst ++ out h).

Definition sha256Hash_Sum (h0 : sha256Hash) (dst : list byte) : result (sha256Hash * list byte) :=
  sha256Hash_sum h0 dst.

Definition NewSHA256 : sha256Hash :=
  let h := new_sha256Hash in
  sha256Hash_Reset h.

Definition sha384Hash_Reset (h0 : sha384Hash) : sha384Hash :=
  set_ctx h0 (Init (C Sha384) (ctx h0)).

Definition sha384Hash_Size (h0 : sha384Hash) : Z := 384 / 8.
Definition sha384Hash_BlockSize (h0 : sha384Hash) : Z := 128.

Definition sha384Hash_Write (h0 : sha384Hash) (p : list byte) : result (sha384Hash * (Z * error)) :=
  if bool_decide (len p > 0) then
    let '(r, c) := Update (C Sha384) (ctx h0) p in
    if bool_decide (r = 0) then Panic "boringcrypto: SHA384_Update failed"
    else Ok (set_ctx h0 c, (len p, nil_error))
  else Ok (h0, (len p, nil_error)).

Definition sha384Hash_WriteString (h0 : sha384Hash) (s : string) : result (sha384Hash * (Z * error)) :=
  if bool_decide (Z.of_nat (String.length s) > 0) then
    let '(r, c) := Update (C Sha384) (ctx h0) (list_byte_of_string s) in
    if bool_decide (r = 0) then Panic "boringcrypto: SHA384_Update failed"
    else Ok (set_ctx h0 c, (Z.of_nat (String.length s), nil_error))
  else Ok (h0, (Z.of_nat (String.length s), nil_error)).

Definition sha384Hash_WriteByte (h0 : sha384Hash) (c : byte) : result (sha384Hash * error) :=
  let '(r, c) := Update (C Sha384) (ctx h0) [c] in
  if bool_decide (r = 0) then Panic "boringcrypto: SHA384_Update failed"
  else Ok (set_ctx h0 c, nil_error).

Definition sha384Hash_sum (h0 : sha384Hash) (dst : list byte) : result (sha384Hash * list byte) :=
  let h := h0 in
  let '(r, digest, c) := Final (C Sha384) (ctx h) in
  let h := set_ctx (set_out h digest) c in
  if bool_decide (r = 0) then Panic "boringcrypto: SHA384_Final failed"
  else Ok (h0, dst ++ out h).

Definition sha384Hash_Sum (h0 : sha384Hash) (dst : list byte) : result (sha384Hash * list byte) :=
  sha384Hash_sum h0 dst.

Definition NewSHA384 : sha384Hash :=
  let h := new_sha384Hash in
  sha384Hash_Reset h.

Definition sha512Hash_Reset (h0 : sha512Hash) : sha512Hash :=
  set_ctx h0 (Init (C Sha512) (ctx h0)).

Definition sha512Hash_Size (h0 : sha512Hash) : Z := 512 / 8.
Definition sha512Hash_BlockSize (h0 : sha512Hash) : Z := 128.

Definition sha512Hash_Write (h0 : sha512Hash) (p : list byte) : result (sha512Hash * (Z * error)) :=
  if bool_decide (len p > 0) then
    let '(r, c) := Update (C Sha512) (ctx h0) p in
    if bool_decide (r = 0) then Panic "boringcrypto: SHA512_Update failed"
    else Ok (set_ctx h0 c, (len p, nil_error))
  else Ok (h0, (len p, nil_error)).

Definition sha512Hash_WriteString (h0 : sha512Hash) (s : string) : result (sha512Hash * (Z * error)) :=
  if bool_decide (Z.of_nat (String.length s) > 0) then
    let '(r, c) := Update (C Sha512) (ctx h0) (list_byte_of_string s) in
    if bool_decide (r = 0) then Panic "boringcrypto: SHA512_Update failed"
    else Ok (set_ctx h0 c, (Z.of_nat (String.length s), nil_error))
  else Ok (h0, (Z.of_nat (String.length s), nil_error)).

Definition sha512Hash_WriteByte (h0 : sha512Hash) (c : byte) : result (sha512Hash * error) :=
  let '(r, c) := Update (C Sha512) (ctx h0) [c] in
  if bool_decide (r = 0) then Panic "boringcrypto: SHA512_Update failed"
  else Ok (set_ctx h0 c, nil_error).

Definition sha512Hash_sum (h0 : sha512Hash) (dst : list byte) : result (sha512Hash * list byte) :=
  let h := h0 in
  let '(r, digest, c) := Final (C Sha512) (ctx h) in
  let h := set_ctx (set_out h digest) c in
  if bool_decide (r = 0) then Panic "boringcrypto: SHA512_Final failed"
  else Ok (h0, dst ++ out h).

Definition sha512Hash_Sum (h0 : sha512Hash) (dst : list byte) : result (sha512Hash * list byte) :=
  sha512Hash_sum h0 dst.

Definition NewSHA512 : sha512Hash :=
  let h := new_sha512Hash in
  sha512Hash_Reset h.

(** The methods by variant. *)
Definition hash_Size (v : alg) : shaHash → Z :=
  match v with
  | Sha1 => sha1Hash_Size | Sha224 => sha224Hash_Size | Sha256 => sha256Hash_Size
  | Sha384 => sha384Hash_Size | Sha512 => sha512Hash_Size
  end.

Definition hash_BlockSize (v : alg) : shaHash → Z :=
  match v with
  | Sha1 => sha1Hash_BlockSize | Sha224 => sha224Hash_BlockSize | Sha256 => sha256Hash_BlockSize
  | Sha384 => sha384Hash_BlockSize | Sha512 => sha512Hash_BlockSize
  end.

Definition hash_New (v : alg) : shaHash :=
  match v with
  | Sha1 => NewSHA1 | Sha224 => NewSHA224 | Sha256 => NewSHA256
  | Sha384 => NewSHA384 | Sha512 => NewSHA512
  end.

Definition hash_Reset (v : alg) : shaHash → shaHash :=
  match v with
  | Sha1 => sha1Hash_Reset | Sha224 => sha224Hash_Reset | Sha256 => sha256Hash_Reset
  | Sha384 => sha384Hash_Reset | Sha512 => sha512Hash_Reset
  end.

Definition hash_Write (v : alg) : shaHash → list byte → result (shaHash * (Z * error)) :=
  match v with
  | Sha1 => sha1Hash_Write | Sha224 => sha224Hash_Write | Sha256 => sha256Hash_Write
  | Sha384 => sha384Hash_Write | Sha512 => sha512Hash_Write
  end.

Definition hash_Sum (v : alg) : shaHash → list byte → result (shaHash * list byte) :=
  match v with
  | Sha1 => sha1Hash_Sum | Sha224 => sha224Hash_Sum | Sha256 => sha256Hash_Sum
  | Sha384 => sha384Hash_Sum | Sha512 => sha512Hash_Sum
  end.

(** [sha224Hash] has no [WriteString] and no [WriteByte]. *)
Definition hash_WriteString (v : alg) : option (shaHash → string → result (shaHash * (Z * error))) :=
  match v with
  | Sha1 => Some sha1Hash_WriteString | Sha224 => None | Sha256 => Some sha256Hash_WriteString
  | Sha384 => Some sha384Hash_WriteString | Sha512 => Some sha512Hash_WriteString
  end.

Definition hash_WriteByte (v : alg) : option (shaHash → byte → result (shaHash * error)) :=
  match v with
  | Sha1 => Some sha1Hash_WriteByte | Sha224 => None | Sha256 => Some sha256Hash_WriteByte
  | Sha384 => Some sha384Hash_WriteByte | Sha512 => Some sha512Hash_WriteByte
  end.

(** A sequence of [Write] calls, each starting where the last one ended. *)
Fixpoint hash_Writes (v : alg) (s : shaHash) (ps : list (list byte)) : result shaHash :=
  match ps with
  | [] => Ok s
  | p :: ps => '(s, _) ← hash_Write v s p; hash_Writes v s ps
  end.

(** Calls on an adapter and what the caller sees of each. *)
Inductive call : Type :=
| CallWrite (p : list byte)
| CallSum (dst : list byte).

Inductive seen : Type :=
| SeenWrite (n : Z) (err : error)
| SeenSum (digest : list byte).

Fixpoint hash_run (v : alg) (s : shaHash) (cs : list call) : result (list seen) :=
  match cs with
  | [] => Ok []
  | CallWrite p :: cs =>
      '(s, (n, err)) ← hash_Write v s p;
      rest ← hash_run v s cs;
      Ok (SeenWrite n err :: rest)
  | CallSum dst :: cs =>
      '(s, digest) ← hash_Sum v s dst;
      rest ← hash_run v s cs;
      Ok (SeenSum digest :: rest)
  end.

End Adapter.


Definition hash_MarshalBinary (v : alg) : shaHash → result (list byte * error) :=
  match v with
  | Sha1 => sha1Hash_MarshalBinary | Sha224 => sha224Hash_MarshalBinary
  | Sha256 => sha256Hash_MarshalBinary
  | Sha384 => sha384Hash_MarshalBinary | Sha512 => sha512Hash_MarshalBinary
  end.

Definition hash_UnmarshalBinary (v : alg) : shaHash → list byte → result (shaHash * error) :=
  match v with
  | Sha1 => sha1Hash_UnmarshalBinary | Sha224 => sha224Hash_UnmarshalBinary
  | Sha256 => sha256Hash_UnmarshalBinary
  | Sha384 => sha384Hash_UnmarshalBinary | Sha512 => sha512Hash_UnmarshalBinary
  end.

(** ** Parameters of the variants *)

Definition word_bits (v : alg) : Z :=
  match v with Sha1 | Sha224 | Sha256 => 32 | Sha384 | Sha512 => 64 end.

Definition word_bytes (v : alg) : nat :=
  match v with Sha1 | Sha224 | Sha256 => 4 | Sha384 | Sha512 => 8 end.

Definition word_count (v : alg) : nat :=
  match v with Sha1 => 5 | Sha224 | Sha256 | Sha384 | Sha512 => 8 end.

Definition block_len (v : alg) : nat :=
  match v with Sha1 | Sha224 | Sha256 => 64 | Sha384 | Sha512 => 128 end.

Definition digest_len (v : alg) : nat :=
  match v with Sha1 => 20 | Sha224 => 28 | Sha256 => 32 | Sha384 => 48 | Sha512 => 64 end.

Definition magic (v : alg) : list byte :=
  match v with
  | Sha1 => sha1Magic | Sha224 => magic224 | Sha256 => magic256
  | Sha384 => magic384 | Sha512 => magic512
  end.

Definition marshaledSize (v : alg) : Z :=
  match v with
  | Sha1 => sha1MarshaledSize
  | Sha224 | Sha256 => marshaledSize256
  | Sha384 | Sha512 => marshaledSize512
  end.

(** The messages of the two errors of [UnmarshalBinary]. *)
Definition identifier_error (v : alg) : string :=
  match v with
  | Sha1 => "crypto/sha1: invalid hash state identifier"
  | Sha224 | Sha256 => "crypto/sha256: invalid hash state identifier"
  | Sha384 | Sha512 => "crypto/sha512: invalid hash state identifier"
  end.

Definition size_error (v : alg) : string :=
  match v with
  | Sha1 => "crypto/sha1: invalid hash state size"
  | Sha224 | Sha256 => "crypto/sha256: invalid hash state size"
  | Sha384 | Sha512 => "crypto/sha512: invalid hash state size"
  end.

(** The bytes of a word, most significant first. *)
Definition be_word (n : nat) (s : Z) : list byte :=
  (λ i : nat, byte.of_Z (Z.shiftr s (8 * Z.of_nat (n - 1 - i)))) <$> seq 0 n.

(** The value of a big-endian byte string. *)
Definition be_value (b : list byte) : Z :=
  foldl (λ acc c, acc * 256 + byte.unsigned c) 0 b.

(** What the types of the Go structs guarantee of a context: array lengths and
    word ranges. *)
Definition ctx_typed (v : alg) (d : shaCtx) : Prop :=
  length (h d) = word_count v ∧
  Forall (λ w, 0 ≤ w < 2 ^ word_bits v) (h d) ∧
  0 ≤ nl d < 2 ^ word_bits v ∧
  0 ≤ nh d < 2 ^ word_bits v ∧
  length (x d) = block_len v ∧
  0 ≤ nx d < 2 ^ 32.

#[global] Instance ctx_typed_dec v d : Decision (ctx_typed v d).
Proof. unfold ctx_typed. apply _. Defined.

(** A HashContext of the data model: a typed context whose count of buffered
    bytes is below the block size. *)
Definition HashContext (v : alg) (d : shaCtx) : Prop :=
  ctx_typed v d ∧ nx d < Z.of_nat (block_len v).

#[global] Instance HashContext_dec v d : Decision (HashContext v d).
Proof. unfold HashContext. apply _. Defined.

(** Two contexts with the same chaining values, counters, buffer count and
    buffered bytes; the bytes of [x] past [nx] are not compared. *)
Definition ctx_eqv (d d' : shaCtx) : Prop :=
  h d = h d' ∧ nl d = nl d' ∧ nh d = nh d' ∧ nx d = nx d' ∧
  take (Z.to_nat (nx d)) (x d) = take (Z.to_nat (nx d)) (x d').

(** The packed length field and its unpacking, as the codec computes them
    (sha.go:186, 206-208 and 534, 578-580). *)
Definition pack_len (v : alg) (nl nh : Z) : Z :=
  match v with
  | Sha1 | Sha224 | Sha256 => Z.lor (Z.shiftr (uint64 nl) 3) (shl64 (uint64 nh) 29)
  | Sha384 | Sha512 => Z.lor (Z.shiftr nl 3) (shl64 nh 61)
  end.

Definition unpack_nl (v : alg) (n : Z) : Z :=
  match v with
  | Sha1 | Sha224 | Sha256 => uint32 (shl64 n 3)
  | Sha384 | Sha512 => shl64 n 3
  end.

Definition unpack_nh (v : alg) (n : Z) : Z :=
  match v with
  | Sha1 | Sha224 | Sha256 => uint32 (Z.shiftr n 29)
  | Sha384 | Sha512 => Z.shiftr n 61
  end.

Definition unpack_nx (v : alg) (n : Z) : Z :=
  match v with
  | Sha1 | Sha224 | Sha256 => uint32 n mod 64
  | Sha384 | Sha512 => uint32 n mod 128
  end.

(** The snapshot layout of the format: tag, chaining values, buffer padded
    with zeros, packed length. *)
Definition snapshot (v : alg) (d : shaCtx) : list byte :=
  magic v
  ++ concat (be_word (word_bytes v) <$> h d)
  ++ (take (Z.to_nat (nx d)) (x d) ++ replicate (block_len v - Z.to_nat (nx d)) Byte.x00)
  ++ be_word 8 (pack_len v (nl d) (nh d)).

(** The context a snapshot of the right tag and size restores. *)
Definition restored (v : alg) (b : list byte) : shaCtx :=
  let n := be_value (drop (4 + word_count v * word_bytes v + block_len v) b) in
  {| h := (λ i : nat, be_value (take (word_bytes v) (drop (4 + i * word_bytes v) b)))
            <$> seq 0 (word_count v);
     nl := unpack_nl v n;
     nh := unpack_nh v n;
     x := take (block_len v) (drop (4 + word_count v * word_bytes v) b);
     nx := unpack_nx v n |}.

(** A context whose counters and buffer count stand for [total] bytes written. *)
Definition counts_bytes (v : alg) (d : shaCtx) (total : Z) : Prop :=
  nh d * 2 ^ word_bits v + nl d = 8 * total ∧
  nx d = total mod Z.of_nat (block_len v).

(** ** The primitive library *)

(** Modelled from the spec: the initial constants of the five algorithms,
    which the primitive library holds and the sources do not. *)
Definition iv (v : alg) : list Z :=
  match v with
  | Sha1 => [0x67452301; 0xefcdab89; 0x98badcfe; 0x10325476; 0xc3d2e1f0]
  | Sha224 => [0xc1059ed8; 0x367cd507; 0x3070dd17; 0xf70e5939;
               0xffc00b31; 0x68581511; 0x64f98fa7; 0xbefa4fa4]
  | Sha256 => [0x6a09e667; 0xbb67ae85; 0x3c6ef372; 0xa54ff53a;
               0x510e527f; 0x9b05688c; 0x1f83d9ab; 0x5be0cd19]
  | Sha384 => [0xcbbb9d5dc1059ed8; 0x629a292a367cd507; 0x9159015a3070dd17; 0x152fecd8f70e5939;
               0x67332667ffc00b31; 0x8eb44a8768581511; 0xdb0c2e0d64f98fa7; 0x47b5481dbefa4fa4]
  | Sha512 => [0x6a09e667f3bcc908; 0xbb67ae8584caa73b; 0x3c6ef372fe94f82b; 0xa54ff53a5f1d36f1;
               0x510e527fade682d1; 0x9b05688c2b3e6c1f; 0x1f83d9abfb41bd6b; 0x5be0cd19137e2179]
  end.

Section Primitives.

(** The compression function of each variant, from the chaining values and
    one block to the new chaining values.  The round logic is the
    library's; nothing is assumed of it. *)
Variable block_fn : alg → list Z → list byte → list Z.

(** Modelled from the spec: one compression into the chaining values, part
    of the primitive library.  The chaining values are an array of
    [word_count] words of [word_bits] bits: whatever is computed is stored
    as such. *)
Definition compress (v : alg) (hh : list Z) (blk : list byte) : list Z :=
  (λ w, w mod 2 ^ word_bits v) <$> resize (word_count v) 0 (block_fn v hh blk).

(** Modelled from the spec: the first [num] blocks of [data], compressed in
    order, part of the primitive library. *)
Fixpoint absorb (v : alg) (hh : list Z) (data : list byte) (num : nat) : list Z :=
  match num with
  | O => hh
  | S k => absorb v (compress v hh (take (block_len v) data)) (drop (block_len v) data) k
  end.

(** Modelled from the spec: [Init] of the primitive library, which is not in
    the sources.  It sets the chaining values to the algorithm's initial
    constants and zeroes the buffer and the counters. *)
Definition prim_Init (v : alg) (d : shaCtx) : shaCtx :=
  {| h := iv v; nl := 0; nh := 0; x := replicate (block_len v) Byte.x00; nx := 0 |}.

(** Modelled from the spec: [Update] of the primitive library, which is not
    in the sources.  It absorbs the bytes: the buffered bytes followed by
    the input are cut in blocks, every full block is compressed into the
    chaining values at once, the tail stays in the buffer, and the two-word
    counter of bits advances by eight per byte.  It reports failure on a
    malformed context, one whose buffer count is not below the block size,
    and only then. *)
Definition prim_Update (v : alg) (d : shaCtx) (data : list byte) : Z * shaCtx :=
  if decide (0 ≤ nx d < Z.of_nat (block_len v)) then
    let buf := take (Z.to_nat (nx d)) (x d) ++ data in
    let k := (length buf / block_len v)%nat in
    let rest := drop (k * block_len v) buf in
    let bits := (nh d * 2 ^ word_bits v + nl d + 8 * len data) mod 2 ^ (2 * word_bits v) in
    (1, {| h := absorb v (h d) buf k;
           nl := bits mod 2 ^ word_bits v;
           nh := bits / 2 ^ word_bits v;
           x := rest ++ drop (length rest) (x d);
           nx := len rest |})
  else (0, d).

(** Modelled from the spec: the padding [Final] of the primitive library
    absorbs: the buffered bytes, one byte 0x80, zeros up to the length
    field, then the counter of bits, high word first. *)
Definition final_blocks (v : alg) (d : shaCtx) : list byte :=
  let pend := take (Z.to_nat (nx d)) (x d) in
  let tail := be_word (word_bytes v) (nh d) ++ be_word (word_bytes v) (nl d) in
  let used := (length pend + 1 + length tail)%nat in
  let pad := ((block_len v - used `mod` block_len v) `mod` block_len v)%nat in
  pend ++ [Byte.x80] ++ replicate pad Byte.x00 ++ tail.

(** Modelled from the spec: [Final] of the primitive library, which is not
    in the sources.  It writes the fixed-size digest: the padded last blocks
    are compressed and the chaining values written out big-endian, cut to
    the digest size; the context is wiped.  Same failure contract as
    [Update].  The digest size is the variant's, as it is in every context
    that went through [Init]. *)
Definition prim_Final (v : alg) (d : shaCtx) : Z * list byte * shaCtx :=
  if decide (0 ≤ nx d < Z.of_nat (block_len v)) then
    let blocks := final_blocks v d in
    let hh := absorb v (h d) blocks (length blocks / block_len v) in
    (1, take (digest_len v) (concat (be_word (word_bytes v) <$> hh)),
     {| h := hh; nl := 0; nh := 0; x := replicate (block_len v) Byte.x00; nx := 0 |})
  else (0, [], d).

(** Modelled from the spec: the capability set the primitive library exposes
    per algorithm family, which is not in the sources. *)
Definition boringcrypto (v : alg) : Primitive :=
  {| Init := prim_Init v; Update := prim_Update v; Final := prim_Final v |}.

(** The digest the adapter returns after a sequence of writes on a new one. *)
Definition digest_after (v : alg) (ps : list (list byte)) (dst : list byte) : result (list byte) :=
  s ← hash_Writes boringcrypto v (hash_New boringcrypto v) ps;
  '(_, sum) ← hash_Sum boringcrypto v s dst;
  Ok sum.

(** The state of a new adapter after [total] bytes [m] have gone through it. *)
Definition streamed (v : alg) (m : list byte) (d : shaCtx) : Prop :=
  ctx_typed v d ∧
  h d = absorb v (iv v) m (length m / block_len v) ∧
  nx d = Z.of_nat (length m `mod` block_len v) ∧
  take (Z.to_nat (nx d)) (x d) = drop ((length m / block_len v) * block_len v) m ∧
  nh d * 2 ^ word_bits v + nl d = (8 * len m) mod 2 ^ (2 * word_bits v).

End Primitives.

(** A compression function for examples: every word of the result is the sum
    of the bytes of the block. *)
Definition toy_block_fn (v : alg) (hh : list Z) (blk : list byte) : list Z :=
  replicate (word_count v) (foldr (λ c acc, byte.unsigned c + acc) 0 blk).

(** The part of the high counter word the length field has room for: all
    of it for the 32-bit variants, its low three bits for the 64-bit ones. *)
Definition kept_high (v : alg) (nh : Z) : Z :=
  match v with Sha1 | Sha224 | Sha256 => nh | Sha384 | Sha512 => nh mod 8 end.

(** The messages of the panics of the adapters. *)
Definition update_failed (v : alg) : string :=
  match v with
  | Sha1 => "boringcrypto: SHA1_Update failed"
  | Sha224 => "boringcrypto: SHA224_Update failed"
  | Sha256 => "boringcrypto: SHA256_Update failed"
  | Sha384 => "boringcrypto: SHA384_Update failed"
  | Sha512 => "boringcrypto: SHA512_Update failed"
  end.

Definition final_failed (v : alg) : string :=
  match v with
  | Sha1 => "boringcrypto: SHA1_Final failed"
  | Sha224 => "boringcrypto: SHA224_Final failed"
  | Sha256 => "boringcrypto: SHA256_Final failed"
  | Sha384 => "boringcrypto: SHA384_Final failed"
  | Sha512 => "boringcrypto: SHA512_Final failed"
  end.

(** An array of chaining values as its type has it. *)
Definition words_typed (v : alg) (hh : list Z) : Prop :=
  length hh = word_count v ∧ Forall (λ w, 0 ≤ w < 2 ^ word_bits v) hh.

(** A context the snapshot format holds without loss: the count of bits is
    a count of whole bytes, the high counter word fits the length field, and
    the buffer count is the count of bytes modulo the block size. *)
Definition packable (v : alg) (d : shaCtx) : Prop :=
  ctx_typed v d ∧ nx d < Z.of_nat (block_len v) ∧
  nl d mod 8 = 0 ∧ kept_high v (nh d) = nh d ∧
  (nl d / 8) mod Z.of_nat (block_len v) = nx d.

(** ** One-shot digests (sha.go:12-55, 75-108) *)

Section OneShot.

(** The cgo bindings, as for the adapters. *)
Variable C : alg → Primitive.

(** The C helpers declare a context on the stack, [Init] it, and return
    [Update(&ctx, p, n) && Final(out, &ctx)]: [Final] is not called when
    [Update] reports failure, and the result is 0 or 1.  [stack] is what the
    uninitialised local holds on entry; the second component is what [out]
    points at on return. *)
Definition goboringcrypto_gosha1 (stack : shaCtx) (p : list byte) (out : list byte) : Z * list byte :=
  let ctx := stack in
  let ctx := Init (C Sha1) ctx in
  let '(r, ctx) := Update (C Sha1) ctx p in
  if bool_decide (r = 0) then (0, out)
  else
    let '(r, digest, ctx) := Final (C Sha1) ctx in
    (if bool_decide (r = 0) then 0 else 1, digest).

Definition goboringcrypto_gosha224 (stack : shaCtx) (p : list byte) (out : list byte) : Z * list byte :=
  let ctx := stack in
  let ctx := Init (C Sha224) ctx in
  let '(r, ctx) := Update (C Sha224) ctx p in
  if bool_decide (r = 0) then (0, out)
  else
    let '(r, digest, ctx) := Final (C Sha224) ctx in
    (if bool_decide (r = 0) then 0 else 1, digest).

Definition goboringcrypto_gosha256 (stack : shaCtx) (p : list byte) (out : list byte) : Z * list byte :=
  let ctx := stack in
  let ctx := Init (C Sha256) ctx in
  let '(r, ctx) := Update (C Sha256) ctx p in
  if bool_decide (r = 0) then (0, out)
  else
    let '(r, digest, ctx) := Final (C Sha256) ctx in
    (if bool_decide (r = 0) then 0 else 1, digest).

Definition goboringcrypto_gosha384 (stack : shaCtx) (p : list byte) (out : list byte) : Z * list byte :=
  let ctx := stack in
  let ctx := Init (C Sha384) ctx in
  let '(r, ctx) := Update (C Sha384) ctx p in
  if bool_decide (r = 0) then (0, out)
  else
    let '(r, digest, ctx) := Final (C Sha384) ctx in
    (if bool_decide (r = 0) then 0 else 1, digest).

Definition goboringcrypto_gosha512 (stack : shaCtx) (p : list byte) (out : list byte) : Z * list byte :=
  let ctx := stack in
  let ctx := Init (C Sha512) ctx in
  let '(r, ctx) := Update (C Sha512) ctx p in
  if bool_decide (r = 0) then (0, out)
  else
    let '(r, digest, ctx) := Final (C Sha512) ctx in
    (if bool_decide (r = 0) then 0 else 1, digest).

Definition SHA1 (stack : shaCtx) (p : list byte) : result (list byte) :=
  let sum := replicate 20 Byte.x00 in
  let '(r, sum) := goboringcrypto_gosha1 stack p sum in
  if bool_decide (r = 0) then Panic "boringcrypto: SHA1 failed"
  else Ok sum.

Definition SHA224 (stack : shaCtx) (p : list byte) : result (list byte) :=
  let sum := replicate 28 Byte.x00 in
  let '(r, sum) := goboringcrypto_gosha224 stack p sum in
  if bool_decide (r = 0) then Panic "boringcrypto: SHA224 failed"
  else Ok sum.

Definition SHA256 (stack : shaCtx) (p : list byte) : result (list byte) :=
  let sum := replicate 32 Byte.x00 in
  let '(r, sum) := goboringcrypto_gosha256 stack p sum in
  if bool_decide (r = 0) then Panic "boringcrypto: SHA256 failed"
  else Ok sum.

Definition SHA384 (stack : shaCtx) (p : list byte) : result (list byte) :=
  let sum := replicate 48 Byte.x00 in
  let '(r, sum) := goboringcrypto_gosha384 stack p sum in
  if bool_decide (r = 0) then Panic "boringcrypto: SHA384 failed"
  else Ok sum.

Definition SHA512 (stack : shaCtx) (p : list byte) : result (list byte) :=
  let sum := replicate 64 Byte.x00 in
  let '(r, sum) := goboringcrypto_gosha512 stack p sum in
  if bool_decide (r = 0) then Panic "boringcrypto: SHA512 failed"
  else Ok sum.

(** The one-shot functions by variant. *)
Definition hash_oneshot (v : alg) : shaCtx → list byte → result (list byte) :=
  match v with
  | Sha1 => SHA1 | Sha224 => SHA224 | Sha256 => SHA256
  | Sha384 => SHA384 | Sha512 => SHA512
  end.

End OneShot.

(** The message of the panic of a one-shot function. *)
Definition oneshot_failed (v : alg) : string :=
  match v with
  | Sha1 => "boringcrypto: SHA1 failed"
  | Sha224 => "boringcrypto: SHA224 failed"
  | Sha256 => "boringcrypto: SHA256 failed"
  | Sha384 => "boringcrypto: SHA384 failed"
  | Sha512 => "boringcrypto: SHA512 failed"
  end.

(** * Properties *)

(** ** Words and bytes *)

Lemma land_low_shiftl a lo k : 0 ≤ k → 0 ≤ lo < 2 ^ k → Z.land lo (Z.shiftl a k) = 0.
Proof.
  intros Hk Hlo. apply Z.bits_inj'; intros n Hn.
  rewrite Z.land_spec, Z.bits_0. destruct (Z.lt_ge_cases n k).
  - rewrite Z.shiftl_spec_low by lia. apply andb_false_r.
  - rewrite <- (Z.mod_small lo (2 ^ k)) by lia.
    rewrite Z.mod_pow2_bits_high by lia. reflexivity.
Qed.

Lemma lor_low_shiftl a lo k : 0 ≤ k → 0 ≤ lo < 2 ^ k → Z.lor lo (Z.shiftl a k) = lo + a * 2 ^ k.
Proof.
  intros Hk Hlo.
  rewrite <- Z.lxor_lor, <- Z.add_nocarry_lxor by (apply land_low_shiftl; lia).
  rewrite Z.shiftl_mul_pow2 by lia. reflexivity.
Qed.

Lemma byte_unsigned_of_Z z : byte.unsigned (byte.of_Z z) = z mod 256.
Proof. rewrite byte.unsigned_of_Z. reflexivity. Qed.

Lemma byte_range (c : byte) : 0 ≤ byte.unsigned c < 256.
Proof. apply byte.unsigned_range. Qed.

Lemma be_value_app b c : be_value (b ++ [c]) = be_value b * 256 + byte.unsigned c.
Proof. unfold be_value. rewrite foldl_app. reflexivity. Qed.

Lemma be_value_bound b : 0 ≤ be_value b < 256 ^ Z.of_nat (length b).
Proof.
  induction b as [|c b IH] using rev_ind.
  - simpl. unfold be_value. simpl. lia.
  - rewrite be_value_app, length_app. simpl length.
    replace (Z.of_nat (length b + 1)) with (Z.of_nat (length b) + 1) by lia.
    rewrite Z.pow_add_r by lia. pose proof (byte_range c). nia.
Qed.

Lemma shl32_small a k : 0 ≤ k ≤ 24 → 0 ≤ a < 256 → shl32 a k = Z.shiftl a k.
Proof.
  intros Hk Ha. unfold shl32, uint32. apply Z.mod_small.
  rewrite Z.shiftl_mul_pow2 by lia. split; [nia|].
  assert (2 ^ k ≤ 2 ^ 24) by (apply Z.pow_le_mono_r; lia).
  change (2 ^ 32) with (256 * 2 ^ 24). nia.
Qed.

Lemma shl64_small a k : 0 ≤ k ≤ 56 → 0 ≤ a < 256 → shl64 a k = Z.shiftl a k.
Proof.
  intros Hk Ha. unfold shl64, uint64. apply Z.mod_small.
  rewrite Z.shiftl_mul_pow2 by lia. split; [nia|].
  assert (2 ^ k ≤ 2 ^ 56) by (apply Z.pow_le_mono_r; lia).
  change (2 ^ 64) with (256 * 2 ^ 56). nia.
Qed.

Ltac lor_to_add :=
  repeat match goal with
  | |- context [Z.lor ?lo (Z.shiftl ?a ?k)] => rewrite (lor_low_shiftl a lo k) by lia
  end.

Lemma consumeUint32_ok (b : list byte) :
  (4 ≤ length b)%nat → consumeUint32 b = Ok (drop 4 b, be_value (take 4 b)).
Proof.
  intros Hb. destruct b as [|b0 [|b1 [|b2 [|b3 rest]]]]; simpl in Hb; try lia.
  unfold consumeUint32. simpl. unfold slice_from. simpl. do 2 f_equal.
  pose proof (byte_range b0). pose proof (byte_range b1).
  pose proof (byte_range b2). pose proof (byte_range b3).
  rewrite !shl32_small by lia.
  unfold be_value. simpl.
  lor_to_add. lia.
Qed.

Lemma consumeUint64_ok (b : list byte) :
  (8 ≤ length b)%nat → consumeUint64 b = Ok (drop 8 b, be_value (take 8 b)).
Proof.
  intros Hb.
  destruct b as [|b0 [|b1 [|b2 [|b3 [|b4 [|b5 [|b6 [|b7 rest]]]]]]]]; simpl in Hb; try lia.
  unfold consumeUint64. simpl. unfold slice_from. simpl. do 2 f_equal.
  pose proof (byte_range b0). pose proof (byte_range b1).
  pose proof (byte_range b2). pose proof (byte_range b3).
  pose proof (byte_range b4). pose proof (byte_range b5).
  pose proof (byte_range b6). pose proof (byte_range b7).
  rewrite !shl64_small by lia.
  unfold be_value. simpl.
  lor_to_add. lia.
Qed.

Lemma consumeUint32_short (b : list byte) :
  (length b < 4)%nat → ∃ msg, consumeUint32 b = Panic msg.
Proof.
  intros Hb. destruct b as [|b0 [|b1 [|b2 [|b3 rest]]]]; simpl in Hb; try lia;
    eexists; reflexivity.
Qed.

Lemma appendUint32_ok b s : appendUint32 b s = Ok (b ++ be_word 4 s).
Proof. reflexivity. Qed.

Lemma appendUint64_ok b s : appendUint64 b s = Ok (b ++ be_word 8 s).
Proof. reflexivity. Qed.

Lemma be_word_S n s : be_word (S n) s = be_word n (Z.shiftr s 8) ++ [byte.of_Z s].
Proof.
  unfold be_word. rewrite seq_S, fmap_app. simpl.
  replace (n - 0 - n)%nat with 0%nat by lia. simpl. f_equal.
  apply list_fmap_ext. intros i j Hj. apply lookup_seq in Hj as [-> Hlt].
  f_equal. rewrite Z.shiftr_shiftr by lia. f_equal. lia.
Qed.

Lemma be_value_be_word n s : be_value (be_word n s) = s mod 256 ^ Z.of_nat n.
Proof.
  revert s. induction n as [|n IH]; intros s.
  - simpl. rewrite Z.mod_1_r. reflexivity.
  - rewrite be_word_S, be_value_app, IH, byte_unsigned_of_Z.
    rewrite Z.shiftr_div_pow2 by lia. change (2 ^ 8) with 256.
    replace (Z.of_nat (S n)) with (1 + Z.of_nat n) by lia.
    rewrite Z.pow_add_r by lia. change (256 ^ 1) with 256.
    assert (0 < 256 ^ Z.of_nat n) by (apply Z.pow_pos_nonneg; lia).
    rewrite Z.rem_mul_r by lia. lia.
Qed.

Lemma length_be_word n s : length (be_word n s) = n.
Proof. unfold be_word. rewrite length_fmap, length_seq. reflexivity. Qed.
Arguments be_word : simpl never.
Lemma reslice_zeros (b : list byte) (n cap : Z) :
  len b ≤ n ≤ cap →
  reslice b n cap = Ok (b ++ replicate (Z.to_nat (n - len b)) Byte.x00).
Proof.
  intros Hk. unfold reslice, len in *. rewrite decide_True by lia. f_equal.
  rewrite take_app_ge by lia. f_equal.
  rewrite take_replicate. f_equal. lia.
Qed.

Lemma slice_to_ok (a : list byte) (k : Z) :
  0 ≤ k ≤ len a → slice_to a k = Ok (take (Z.to_nat k) a).
Proof. intros Hk. unfold slice_to. rewrite decide_True by lia. reflexivity. Qed.

Lemma bind_Ok {A B} (a : A) (f : A → result B) : (Ok a ≫= f) = f a.
Proof. reflexivity. Qed.

Ltac marshal_steps :=
  repeat first
    [ rewrite appendUint32_ok, bind_Ok
    | rewrite appendUint64_ok, bind_Ok ].

Ltac list_len :=
  unfold sha1MarshaledSize, marshaledSize256, marshaledSize512,
    sha1Magic, magic224, magic256, magic384, magic512, len in *;
  rewrite ?length_app, ?length_be_word, ?length_take, ?length_drop, ?length_replicate;
  simpl length in *; try lia.

Lemma MarshalBinary_snapshot v s :
  length (h (ctx s)) = word_count v →
  length (x (ctx s)) = block_len v →
  0 ≤ nx (ctx s) ≤ Z.of_nat (block_len v) →
  hash_MarshalBinary v s = Ok (snapshot v (ctx s), nil_error).
Proof.
  destruct s as [[hh dnl dnh dx dnx] o]. simpl. intros Hh Hx Hnx.
  destruct v; simpl in Hh, Hx, Hnx;
    repeat (destruct hh as [|? hh]; try discriminate Hh);
    unfold hash_MarshalBinary, sha1Hash_MarshalBinary, sha224Hash_MarshalBinary,
      sha256Hash_MarshalBinary, sha384Hash_MarshalBinary, sha512Hash_MarshalBinary, snapshot;
    simpl ctx; cbn [h nl nh x nx]; cbv zeta; marshal_steps;
    (rewrite slice_to_ok, bind_Ok by (unfold len; lia));
    (rewrite reslice_zeros, bind_Ok by (split; list_len));
    marshal_steps; do 2 f_equal; simpl; rewrite <- ?app_assoc; simpl;
    repeat f_equal; list_len.
Qed.
Lemma slice_from_ok (b : list byte) (k : nat) :
  (k ≤ length b)%nat → slice_from b k = Ok (drop k b).
Proof. intros Hk. unfold slice_from. rewrite decide_True by lia. reflexivity. Qed.

Ltac unmarshal_steps :=
  repeat first
    [ rewrite consumeUint32_ok, bind_Ok by list_len
    | rewrite consumeUint64_ok, bind_Ok by list_len
    | rewrite slice_from_ok, bind_Ok by list_len ].

Lemma UnmarshalBinary_identifier v recv b :
  len b < 4 ∨ take 4 b ≠ magic v →
  hash_UnmarshalBinary v recv b = Ok (recv, errors_New (identifier_error v)).
Proof.
  intros Hb.
  destruct v; simpl;
    unfold sha1Hash_UnmarshalBinary, sha224Hash_UnmarshalBinary, sha256Hash_UnmarshalBinary,
      sha384Hash_UnmarshalBinary, sha512Hash_UnmarshalBinary;
    change (len sha1Magic) with 4; change (len magic224) with 4;
    change (len magic256) with 4; change (len magic512) with 4;
    simpl length;
    destruct Hb as [Hb|Hb];
    repeat case_bool_decide; simpl; try reflexivity; try lia; try contradiction.
Qed.

Lemma UnmarshalBinary_size v recv b :
  4 ≤ len b → take 4 b = magic v → len b ≠ marshaledSize v →
  hash_UnmarshalBinary v recv b = Ok (recv, errors_New (size_error v)).
Proof.
  intros Hlen Hb Hsz.
  destruct v; simpl in *;
    unfold sha1Hash_UnmarshalBinary, sha224Hash_UnmarshalBinary, sha256Hash_UnmarshalBinary,
      sha384Hash_UnmarshalBinary, sha512Hash_UnmarshalBinary;
    change (len sha1Magic) with 4; change (len magic224) with 4;
    change (len magic256) with 4; change (len magic512) with 4;
    simpl length;
    repeat case_bool_decide; simpl; try reflexivity; try lia; try contradiction.
Qed.

Lemma UnmarshalBinary_restored v recv b :
  length (h (ctx recv)) = word_count v →
  length (x (ctx recv)) = block_len v →
  take 4 b = magic v → len b = marshaledSize v →
  hash_UnmarshalBinary v recv b = Ok (set_ctx recv (restored v b), nil_error).
Proof.
  destruct recv as [[hh dnl dnh dx dnx] o]. simpl. intros Hh Hx Hb Hsz.
  destruct v; simpl in *;
    repeat (destruct hh as [|? hh]; try discriminate Hh);
    unfold sha1Hash_UnmarshalBinary, sha224Hash_UnmarshalBinary, sha256Hash_UnmarshalBinary,
      sha384Hash_UnmarshalBinary, sha512Hash_UnmarshalBinary;
    change (len sha1Magic) with 4; change (len magic224) with 4;
    change (len magic256) with 4; change (len magic512) with 4;
    simpl length.
  all: assert (Z.of_nat (length b) = len b) as Hlen by reflexivity;
    rewrite Hsz in Hlen.
  all: try (rewrite (bool_decide_false (len b < 4)) by list_len).
  all: rewrite (bool_decide_true (take 4 b = _)) by assumption;
    rewrite (bool_decide_true (len b = _)) by assumption.
  all:  cbn [orb negb]; cbv zeta; simpl ctx.
  all: unmarshal_steps;
    rewrite !drop_drop; unfold copy; cbn [x set_h set_x];
    rewrite Hx, length_drop;
    match goal with |- context [Nat.min ?a ?c] => replace (Nat.min a c) with a by list_len end;
    cbv iota beta;
    unmarshal_steps; rewrite !drop_drop;
    unfold restored, set_ctx; simpl;
    match goal with |- context [take ?n (drop ?k ?l)] =>
      rewrite (take_ge (drop k l) n) by list_len end;
    match goal with |- context [drop ?n ?l] => rewrite (drop_ge l n) by lia end;
    rewrite app_nil_r;
    reflexivity.
Qed.
Lemma length_concat_words wb (hs : list Z) :
  length (concat (be_word wb <$> hs)) = (length hs * wb)%nat.
Proof.
  induction hs as [|w hs IH]; [reflexivity|].
  rewrite fmap_cons. change (concat (?a :: ?l)) with (a ++ concat l).
  rewrite length_app, length_be_word, IH. reflexivity.
Qed.

Lemma chunk_lookup wb (hs : list Z) rest i w :
  hs !! i = Some w →
  take wb (drop (i * wb) (concat (be_word wb <$> hs) ++ rest)) = be_word wb w.
Proof.
  revert i. induction hs as [|a hs IH]; intros i Hi; [discriminate|].
  rewrite fmap_cons. change (concat (?a :: ?l)) with (a ++ concat l).
  destruct i as [|i]; simpl in Hi.
  - injection Hi as ->. rewrite <- app_assoc. simpl drop.
    apply take_app_length'. symmetry. apply length_be_word.
  - rewrite <- app_assoc. change (S i * wb)%nat with (wb + i * wb)%nat.
    rewrite drop_app_add' by (symmetry; apply length_be_word). apply IH, Hi.
Qed.

Lemma fmap_seq_lookup {A B} (f : nat → B) (g : A → B) (l : list A) :
  (∀ i a, l !! i = Some a → f i = g a) →
  f <$> seq 0 (length l) = g <$> l.
Proof.
  intros Hfg. apply list_eq. intros i.
  rewrite !list_lookup_fmap.
  destruct (l !! i) as [a|] eqn:Hl.
  - rewrite (lookup_seq_lt 0 (length l) i) by (eapply lookup_lt_Some, Hl).
    simpl. f_equal. apply Hfg, Hl.
  - rewrite lookup_seq_ge by (apply lookup_ge_None, Hl). reflexivity.
Qed.

Lemma byte_pow v : 256 ^ Z.of_nat (word_bytes v) = 2 ^ word_bits v.
Proof. destruct v; reflexivity. Qed.

Lemma restored_snapshot v d :
  length (h d) = word_count v →
  length (x d) = block_len v →
  0 ≤ nx d ≤ Z.of_nat (block_len v) →
  restored v (snapshot v d) =
    {| h := (λ w, w mod 2 ^ word_bits v) <$> h d;
       nl := unpack_nl v (uint64 (pack_len v (nl d) (nh d)));
       nh := unpack_nh v (uint64 (pack_len v (nl d) (nh d)));
       x := take (Z.to_nat (nx d)) (x d)
              ++ replicate (block_len v - Z.to_nat (nx d)) Byte.x00;
       nx := unpack_nx v (uint64 (pack_len v (nl d) (nh d))) |}.
Proof.
  intros Hh Hx Hnx.
  assert (length (magic v) = 4%nat) as Hm by (destruct v; reflexivity).
  assert (length (take (Z.to_nat (nx d)) (x d)
            ++ replicate (block_len v - Z.to_nat (nx d)) Byte.x00) = block_len v) as Hbuf.
  { rewrite length_app, length_take, length_replicate. lia. }
  assert (be_value (drop (4 + word_count v * word_bytes v + block_len v) (snapshot v d))
          = uint64 (pack_len v (nl d) (nh d))) as Hn.
  { unfold snapshot.
    rewrite <- !Nat.add_assoc, drop_app_add' by (symmetry; exact Hm).
    rewrite drop_app_add' by (rewrite length_concat_words, Hh; reflexivity).
    rewrite drop_app_length' by (symmetry; exact Hbuf).
    rewrite be_value_be_word. reflexivity. }
  unfold restored. rewrite Hn. f_equal.
  - rewrite <- Hh. apply fmap_seq_lookup. intros i w Hi.
    unfold snapshot. rewrite drop_app_add' by (symmetry; exact Hm).
    rewrite (chunk_lookup _ _ _ _ _ Hi), be_value_be_word, byte_pow. reflexivity.
  - unfold snapshot. rewrite drop_app_add' by (symmetry; exact Hm).
    rewrite <- (Nat.add_0_r (word_count v * word_bytes v)).
    rewrite drop_app_add' by (rewrite length_concat_words, Hh; reflexivity).
    simpl drop. apply take_app_length'. symmetry. exact Hbuf.
Qed.
(** ** The packed length field *)

Lemma lor_low_mul a lo k : 0 ≤ k → 0 ≤ lo < 2 ^ k → Z.lor lo (a * 2 ^ k) = lo + a * 2 ^ k.
Proof. intros. rewrite <- (lor_low_shiftl a lo k), Z.shiftl_mul_pow2 by lia. reflexivity. Qed.

Lemma pack_len_value v vnl vnh :
  0 ≤ vnl < 2 ^ word_bits v → 0 ≤ vnh < 2 ^ word_bits v →
  pack_len v vnl vnh = vnl / 8 + kept_high v vnh * 2 ^ (word_bits v - 3).
Proof.
  intros Hnl Hnh. destruct v; simpl word_bits in *; unfold pack_len, kept_high, shl64, uint64.
  1-3: rewrite (Z.mod_small vnl), (Z.mod_small vnh) by lia;
    rewrite Z.shiftl_mul_pow2, Z.shiftr_div_pow2 by lia;
    rewrite (Z.mod_small (vnh * 2 ^ 29)) by lia;
    apply lor_low_mul; [lia|]; change (2 ^ 3) with 8; simpl Z.sub;
    split; [apply Z.div_pos; lia | apply Z.div_lt_upper_bound; lia].
  all: rewrite Z.shiftl_mul_pow2, Z.shiftr_div_pow2 by lia;
    change (2 ^ 64) with (2 ^ 3 * 2 ^ 61);
    rewrite Z.mul_mod_distr_r by lia;
    apply lor_low_mul; [lia|]; change (2 ^ 3) with 8; simpl Z.sub;
    split; [apply Z.div_pos; lia | apply Z.div_lt_upper_bound; lia].
Qed.

Lemma pack_len_range v vnl vnh :
  0 ≤ vnl < 2 ^ word_bits v → 0 ≤ vnh < 2 ^ word_bits v →
  0 ≤ pack_len v vnl vnh < 2 ^ 64.
Proof.
  intros Hnl Hnh. rewrite pack_len_value by assumption.
  destruct v; unfold kept_high; simpl word_bits in *; simpl Z.sub;
    Z.div_mod_to_equations; lia.
Qed.

Lemma unpack_pack v vnl vnh :
  0 ≤ vnl < 2 ^ word_bits v → 0 ≤ vnh < 2 ^ word_bits v →
  let n := uint64 (pack_len v vnl vnh) in
  unpack_nl v n = vnl - vnl mod 8 ∧
  unpack_nh v n = kept_high v vnh ∧
  unpack_nx v n = (vnl / 8) mod Z.of_nat (block_len v).
Proof.
  intros Hnl Hnh n. subst n. unfold uint64.
  rewrite Z.mod_small by (apply pack_len_range; assumption).
  rewrite pack_len_value by assumption.
  destruct v; simpl word_bits in *; unfold unpack_nl, unpack_nh, unpack_nx, kept_high,
    shl64, uint64, uint32; simpl block_len; simpl Z.sub;
    rewrite ?Z.shiftl_mul_pow2, ?Z.shiftr_div_pow2 by lia.
  all: repeat split.
  all: Z.div_mod_to_equations; lia.
Qed.
(** ** The adapters, whatever the primitive does *)

Section AdapterFacts.

Variable C : alg → Primitive.

Lemma hash_Write_unfold v s p :
  hash_Write C v s p =
    if bool_decide (len p > 0) then
      let '(r, c) := Update (C v) (ctx s) p in
      if bool_decide (r = 0) then Panic (update_failed v)
      else Ok (set_ctx s c, (len p, nil_error))
    else Ok (s, (len p, nil_error)).
Proof. destruct v; reflexivity. Qed.

Lemma hash_Sum_unfold v s dst :
  hash_Sum C v s dst =
    let '(r, digest, c) := Final (C v) (ctx s) in
    if bool_decide (r = 0) then Panic (final_failed v)
    else Ok (s, dst ++ digest).
Proof.
  destruct v; simpl;
    unfold sha1Hash_Sum, sha1Hash_sum, sha224Hash_Sum, sha224Hash_sum,
      sha256Hash_Sum, sha256Hash_sum, sha384Hash_Sum, sha384Hash_sum,
      sha512Hash_Sum, sha512Hash_sum;
    destruct (Final _ _) as [[r digest] c]; reflexivity.
Qed.

Lemma hash_New_unfold v : hash_New C v = set_ctx (hash_new v) (Init (C v) (ctx (hash_new v))).
Proof. destruct v; reflexivity. Qed.

Lemma hash_Reset_unfold v s : hash_Reset C v s = set_ctx s (Init (C v) (ctx s)).
Proof. destruct v; reflexivity. Qed.

End AdapterFacts.
(** ** The primitive library *)

Lemma block_len_pos v : (0 < block_len v)%nat.
Proof. destruct v; simpl; lia. Qed.

Lemma block_len_small v : Z.of_nat (block_len v) < 2 ^ 32.
Proof. destruct v; simpl; lia. Qed.

Lemma word_bits_pos v : 0 < word_bits v.
Proof. destruct v; simpl; lia. Qed.

Section PrimitiveFacts.

Variable block_fn : alg → list Z → list byte → list Z.

Abbreviation absorb := (absorb block_fn).
Abbreviation compress := (compress block_fn).
Abbreviation prim_Update := (prim_Update block_fn).
Abbreviation prim_Final := (prim_Final block_fn).

Lemma compress_typed v hh blk : words_typed v (compress v hh blk).
Proof.
  unfold compress, words_typed. split.
  - rewrite length_fmap, length_resize. reflexivity.
  - apply Forall_fmap, Forall_forall. intros w _. simpl.
    apply Z.mod_pos_bound. pose proof (word_bits_pos v). apply Z.pow_pos_nonneg; lia.
Qed.

Lemma absorb_typed v hh data k : words_typed v hh → words_typed v (absorb v hh data k).
Proof.
  revert hh data. induction k as [|k IH]; intros hh data Hh; simpl; [exact Hh|].
  apply IH, compress_typed.
Qed.

Lemma iv_typed v : words_typed v (iv v).
Proof.
  split; [destruct v; reflexivity|].
  destruct v; simpl; repeat constructor; lia.
Qed.

Lemma absorb_app v hh a b ka kb :
  (ka * block_len v ≤ length a)%nat →
  absorb v hh (a ++ b) (ka + kb) =
    absorb v (absorb v hh a ka) (drop (ka * block_len v) a ++ b) kb.
Proof.
  revert hh a. induction ka as [|ka IH]; intros hh a Ha; simpl.
  - reflexivity.
  - simpl in Ha.
    rewrite take_app_le, drop_app_le by lia.
    rewrite IH by (rewrite length_drop; lia).
    rewrite drop_drop. reflexivity.
Qed.

Lemma absorb_prefix v hh a b k :
  (k * block_len v ≤ length a)%nat → absorb v hh (a ++ b) k = absorb v hh a k.
Proof.
  intros Ha. rewrite <- (Nat.add_0_r k) at 1. rewrite absorb_app by exact Ha. reflexivity.
Qed.

Lemma prim_Update_streamed v m d p :
  streamed block_fn v m d →
  ∃ d', prim_Update v d p = (1, d') ∧ streamed block_fn v (m ++ p) d'.
Proof.
  intros (Htyped & Hh & Hnx & Hx & Hbits).
  destruct Htyped as (Hlh & Hfh & Hnlr & Hnhr & Hlx & Hnxr).
  pose proof (block_len_pos v) as HB.
  set (B := block_len v) in *.
  assert (length m `mod` B < B)%nat as Hmod by (apply Nat.mod_upper_bound; lia).
  pose proof (Nat.div_mod_eq (length m) B) as Hdm.
  unfold prim_Update. fold B. rewrite decide_True by lia.
  eexists. split; [reflexivity|].
  rewrite Hx.
  set (k0 := (length m / B)%nat) in *.
  set (buf := drop (k0 * B) m ++ p).
  assert (length buf = (length m `mod` B + length p)%nat) as Hbuf.
  { unfold buf. rewrite length_app, length_drop. lia. }
  set (k := (length buf / B)%nat).
  pose proof (Nat.div_mod_eq (length buf) B) as Hdb. fold k in Hdb.
  assert (length buf `mod` B < B)%nat as Hmodb by (apply Nat.mod_upper_bound; lia).
  assert (length (m ++ p) / B = k0 + k)%nat as Hk.
  { rewrite length_app. replace (length m + length p)%nat with (k0 * B + length buf)%nat by lia.
    rewrite Nat.div_add_l by lia. reflexivity. }
  assert (length (m ++ p) `mod` B = length buf `mod` B)%nat as Hr.
  { rewrite length_app. replace (length m + length p)%nat with (length buf + k0 * B)%nat by lia.
    apply Nat.Div0.mod_add. }
  assert (length (drop (k * B) buf) = (length buf `mod` B)%nat) as Hrest.
  { rewrite length_drop. lia. }
  pose proof (word_bits_pos v) as Hw.
  assert (0 < 2 ^ word_bits v) as Hpw by (apply Z.pow_pos_nonneg; lia).
  unfold streamed, ctx_typed. simpl.
  assert (words_typed v (absorb v (h d) buf k)) as [Hl' Hf'].
  { apply absorb_typed. split; assumption. }
  repeat split; fold B.
  - exact Hl'.
  - exact Hf'.
  - apply Z.mod_pos_bound; lia.
  - apply Z.mod_pos_bound; lia.
  - apply Z.div_pos; [|lia]. apply Z.mod_pos_bound. apply Z.pow_pos_nonneg; lia.
  - apply Z.div_lt_upper_bound; [lia|].
    rewrite <- Z.pow_add_r by lia. replace (word_bits v + word_bits v) with (2 * word_bits v) by lia.
    apply Z.mod_pos_bound. apply Z.pow_pos_nonneg; lia.
  - rewrite length_app, !Hrest, length_drop, Hlx. lia.
  - unfold len. lia.
  - unfold len. rewrite Hrest. pose proof (block_len_small v) as Hs. fold B in Hs. lia.
  - rewrite Hk, Hh. unfold buf.
    rewrite absorb_app by lia. reflexivity.
  - unfold len. rewrite Hrest, Hr. reflexivity.
  - unfold len. rewrite Nat2Z.id. rewrite take_app_length.
    rewrite Hk. unfold buf.
    rewrite Nat.mul_add_distr_r, <- drop_drop.
    rewrite (drop_app_le m p) by lia. reflexivity.
  - rewrite Z.mul_comm, <- Z.div_mod by lia.
    rewrite Hbits. unfold len. rewrite length_app, Nat2Z.inj_add.
    rewrite Z.add_mod_idemp_l by (apply Z.pow_nonzero; lia).
    f_equal. lia.
Qed.

End PrimitiveFacts.
(** ** Contexts a new adapter reaches *)

Section StreamFacts.
Variable block_fn : alg → list Z → list byte → list Z.

Abbreviation prim_Update := (prim_Update block_fn).
Abbreviation prim_Final := (prim_Final block_fn).
Abbreviation BC := (boringcrypto block_fn).

Lemma prim_Init_streamed v d : streamed block_fn v [] (prim_Init v d).
Proof.
  pose proof (iv_typed v) as [Hl Hf].
  pose proof (word_bits_pos v) as Hw.
  assert (0 < 2 ^ word_bits v) as Hpw by (apply Z.pow_pos_nonneg; lia).
  unfold streamed, ctx_typed, prim_Init. simpl.
  rewrite length_replicate. unfold len. simpl length.
  rewrite Nat.Div0.div_0_l, Nat.Div0.mod_0_l. simpl.
  rewrite ?Z.mod_0_l by (apply Z.pow_nonzero; lia).
  repeat split; try assumption; try lia.
Qed.

Lemma streamed_HashContext v m d : streamed block_fn v m d → HashContext v d.
Proof.
  intros (Htyped & _ & Hnx & _). split; [exact Htyped|].
  rewrite Hnx. pose proof (block_len_pos v).
  apply Nat2Z.inj_lt, Nat.mod_upper_bound. lia.
Qed.

Lemma streamed_eqv v m d d' : streamed block_fn v m d → streamed block_fn v m d' → ctx_eqv d d'.
Proof.
  intros (Ht & Hh & Hnx & Hx & Hbits) (Ht' & Hh' & Hnx' & Hx' & Hbits').
  destruct Ht as (_ & _ & Hnl & Hnh & _), Ht' as (_ & _ & Hnl' & Hnh' & _).
  pose proof (word_bits_pos v) as Hw.
  assert (0 < 2 ^ word_bits v) as Hpw by (apply Z.pow_pos_nonneg; lia).
  assert (nh d = nh d' ∧ nl d = nl d') as [Hnhe Hnle].
  { rewrite <- Hbits' in Hbits.
    apply (Z.div_mod_unique (2 ^ word_bits v)); [left; lia | left; lia | lia]. }
  unfold ctx_eqv. repeat split; congruence.
Qed.

Lemma prim_Update_eqv v d d' p :
  ctx_eqv d d' →
  (prim_Update v d p).1 = (prim_Update v d' p).1 ∧
  ctx_eqv (prim_Update v d p).2 (prim_Update v d' p).2.
Proof.
  intros (Hh & Hnl & Hnh & Hnx & Hx). unfold prim_Update.
  rewrite <- Hnx, <- Hx, <- Hh, <- Hnl, <- Hnh.
  destruct (decide _); simpl; [|repeat split; assumption].
  repeat split. cbn [nx x]. unfold len. rewrite !Nat2Z.id, !take_app_length. reflexivity.
Qed.

Lemma prim_Final_eqv v d d' :
  ctx_eqv d d' →
  (prim_Final v d).1 = (prim_Final v d').1.
Proof.
  intros (Hh & Hnl & Hnh & Hnx & Hx). unfold prim_Final, final_blocks.
  rewrite <- Hnx, <- Hx, <- Hh, <- Hnl, <- Hnh.
  destruct (decide _); reflexivity.
Qed.

End StreamFacts.
(** ** The adapters over the primitive library *)

Section BoringFacts.
Variable block_fn : alg → list Z → list byte → list Z.

Abbreviation streamed := (streamed block_fn).
Abbreviation BC := (boringcrypto block_fn).

Lemma hash_New_streamed v : streamed v [] (ctx (hash_New BC v)).
Proof. rewrite hash_New_unfold. apply prim_Init_streamed. Qed.

Lemma hash_Write_streamed v m s p :
  streamed v m (ctx s) →
  ∃ s', hash_Write BC v s p = Ok (s', (len p, nil_error))
        ∧ streamed v (m ++ p) (ctx s') ∧ out s' = out s.
Proof.
  intros Hs. rewrite hash_Write_unfold. case_bool_decide as Hp.
  - destruct (prim_Update_streamed block_fn v m (ctx s) p Hs) as (d' & Hu & Hs').
    simpl. rewrite Hu. rewrite bool_decide_false by lia.
    eexists. split; [reflexivity|]. split; [exact Hs'|reflexivity].
  - exists s. split; [reflexivity|]. split; [|reflexivity].
    destruct p; [rewrite app_nil_r; exact Hs|]. unfold len in Hp. simpl in Hp. lia.
Qed.

Lemma hash_Writes_streamed v m s ps :
  streamed v m (ctx s) →
  ∃ s', hash_Writes BC v s ps = Ok s' ∧ streamed v (m ++ concat ps) (ctx s').
Proof.
  revert m s. induction ps as [|p ps IH]; intros m s Hs.
  - exists s. rewrite app_nil_r. split; [reflexivity|exact Hs].
  - destruct (hash_Write_streamed v m s p Hs) as (s1 & Hw & Hs1 & _).
    destruct (IH _ _ Hs1) as (s' & Hws & Hs').
    exists s'. simpl. rewrite Hw. simpl. rewrite Hws.
    split; [reflexivity|]. rewrite app_assoc. exact Hs'.
Qed.

Lemma hash_Write_eqv v s s' p :
  ctx_eqv (ctx s) (ctx s') →
  match hash_Write BC v s p, hash_Write BC v s' p with
  | Ok (t, r), Ok (t', r') => r = r' ∧ ctx_eqv (ctx t) (ctx t')
  | Panic a, Panic b => a = b
  | _, _ => False
  end.
Proof.
  intros He. rewrite !hash_Write_unfold. case_bool_decide.
  - destruct (prim_Update_eqv block_fn v _ _ p He) as [Hf Hc]. simpl in *.
    destruct (prim_Update _ _ (ctx s) p) as [r c], (prim_Update _ _ (ctx s') p) as [r' c'].
    simpl in *. subst r'. case_bool_decide; [reflexivity|]. split; [reflexivity|exact Hc].
  - split; [reflexivity|exact He].
Qed.

Lemma hash_Sum_eqv v s s' dst :
  ctx_eqv (ctx s) (ctx s') →
  match hash_Sum BC v s dst, hash_Sum BC v s' dst with
  | Ok (t, r), Ok (t', r') => r = r' ∧ t = s ∧ t' = s'
  | Panic a, Panic b => a = b
  | _, _ => False
  end.
Proof.
  intros He. rewrite !hash_Sum_unfold.
  pose proof (prim_Final_eqv block_fn v _ _ He) as Hf. simpl in *.
  destruct (prim_Final _ _ (ctx s)) as [[r dg] c], (prim_Final _ _ (ctx s')) as [[r' dg'] c'].
  simpl in Hf. injection Hf as -> ->. case_bool_decide; [reflexivity|]. auto.
Qed.

Lemma hash_run_eqv v s s' cs :
  ctx_eqv (ctx s) (ctx s') → hash_run BC v s cs = hash_run BC v s' cs.
Proof.
  revert s s'. induction cs as [|c cs IH]; intros s s' He; [reflexivity|].
  destruct c as [p|dst]; simpl.
  - pose proof (hash_Write_eqv v s s' p He) as Hw.
    destruct (hash_Write BC v s p) as [[t [n e]]|a], (hash_Write BC v s' p) as [[t' [n' e']]|a'];
      try contradiction; simpl.
    + destruct Hw as [Hr Hc]. injection Hr as -> ->. rewrite (IH _ _ Hc). reflexivity.
    + congruence.
  - pose proof (hash_Sum_eqv v s s' dst He) as Hw.
    destruct (hash_Sum BC v s dst) as [[t r]|a], (hash_Sum BC v s' dst) as [[t' r']|a'];
      try contradiction; simpl.
    + destruct Hw as (-> & -> & ->). rewrite (IH _ _ He). reflexivity.
    + congruence.
Qed.

Lemma hash_Writes_eqv v s s' ps :
  ctx_eqv (ctx s) (ctx s') →
  match hash_Writes BC v s ps, hash_Writes BC v s' ps with
  | Ok t, Ok t' => ctx_eqv (ctx t) (ctx t')
  | Panic a, Panic b => a = b
  | _, _ => False
  end.
Proof.
  revert s s'. induction ps as [|p ps IH]; intros s s' He; simpl; [exact He|].
  pose proof (hash_Write_eqv v s s' p He) as Hw.
  destruct (hash_Write _ v s p) as [[t r]|a], (hash_Write _ v s' p) as [[t' r']|a'];
    try contradiction; simpl.
  - destruct Hw as [_ Hc]. apply IH, Hc.
  - exact Hw.
Qed.

Lemma hash_Reset_streamed v r : streamed v [] (ctx (hash_Reset BC v r)).
Proof. rewrite hash_Reset_unfold. apply prim_Init_streamed. Qed.

(** An adapter that has been [Reset] and written to holds a HashContext. *)
Lemma hash_Reset_Writes_typed v r qs recv :
  hash_Writes BC v (hash_Reset BC v r) qs = Ok recv →
  length (h (ctx recv)) = word_count v ∧ length (x (ctx recv)) = block_len v.
Proof.
  intros Hq.
  destruct (hash_Writes_streamed v [] _ qs (hash_Reset_streamed v r)) as (t & Hw & Hs).
  rewrite Hq in Hw. injection Hw as <-.
  destruct Hs as ((Hl & _ & _ & _ & Hx & _) & _). auto.
Qed.

End BoringFacts.
(** ** Snapshots *)

Lemma marshaledSize_value v :
  marshaledSize v = 4 + Z.of_nat (word_count v * word_bytes v) + Z.of_nat (block_len v) + 8.
Proof. destruct v; reflexivity. Qed.

Lemma snapshot_length v d :
  length (h d) = word_count v → 0 ≤ nx d ≤ Z.of_nat (block_len v) →
  length (x d) = block_len v →
  len (snapshot v d) = marshaledSize v.
Proof.
  intros Hh Hnx Hx. rewrite marshaledSize_value. unfold snapshot, len.
  rewrite !length_app, length_concat_words, length_be_word, length_take, length_replicate, Hh.
  assert (length (magic v) = 4%nat) as -> by (destruct v; reflexivity). lia.
Qed.

Lemma snapshot_magic v d : take 4 (snapshot v d) = magic v.
Proof. unfold snapshot. apply take_app_length'. destruct v; reflexivity. Qed.

Lemma fmap_mod_typed v (hh : list Z) :
  Forall (λ w, 0 ≤ w < 2 ^ word_bits v) hh → (λ w, w mod 2 ^ word_bits v) <$> hh = hh.
Proof.
  induction 1 as [|w hh Hw _ IH]; [reflexivity|].
  rewrite fmap_cons, IH, Z.mod_small by exact Hw. reflexivity.
Qed.

Lemma snapshot_eqv v d d' : ctx_eqv d d' → snapshot v d = snapshot v d'.
Proof.
  intros (Hh & Hnl & Hnh & Hnx & Hx). unfold snapshot.
  rewrite <- Hh, <- Hnl, <- Hnh, <- Hnx, <- Hx. reflexivity.
Qed.

Lemma roundtrip_packable v d recv o :
  packable v d →
  length (h (ctx recv)) = word_count v → length (x (ctx recv)) = block_len v →
  ∃ s', hash_MarshalBinary v {| ctx := d; out := o |} = Ok (snapshot v d, nil_error)
        ∧ hash_UnmarshalBinary v recv (snapshot v d) = Ok (s', nil_error)
        ∧ out s' = out recv
        ∧ ctx_eqv d (ctx s')
        ∧ x (ctx s') = take (Z.to_nat (nx d)) (x d)
                         ++ replicate (block_len v - Z.to_nat (nx d)) Byte.x00.
Proof.
  intros (Ht & Hnx & Hnl8 & Hkept & Hcnt) Hrh Hrx.
  destruct Ht as (Hlh & Hfh & Hnlr & Hnhr & Hlx & Hnxr).
  exists (set_ctx recv (restored v (snapshot v d))).
  split; [apply MarshalBinary_snapshot; simpl; [assumption|assumption|lia]|].
  split.
  { apply UnmarshalBinary_restored; try assumption.
    - apply snapshot_magic.
    - apply snapshot_length; [assumption|lia|assumption]. }
  split; [reflexivity|].
  rewrite restored_snapshot by (try assumption; lia).
  destruct (unpack_pack v (nl d) (nh d) Hnlr Hnhr) as (Hu1 & Hu2 & Hu3).
  simpl in Hu1, Hu2, Hu3. simpl ctx.
  split; [|reflexivity].
  unfold ctx_eqv. simpl. repeat split.
  - symmetry. apply fmap_mod_typed, Hfh.
  - lia.
  - lia.
  - lia.
  - rewrite take_app_le by (rewrite length_take; lia).
    rewrite take_take. f_equal. lia.
Qed.
Lemma counts_packable v d total :
  ctx_typed v d → counts_bytes v d total → 0 ≤ total < 2 ^ 61 → packable v d.
Proof.
  intros Ht [Hbits Hnx] Htot. split; [exact Ht|].
  destruct Ht as (_ & _ & Hnlr & Hnhr & _ & _).
  unfold kept_high.
  destruct v; simpl word_bits in *; simpl block_len in *;
    change (Z.of_nat 64) with 64 in *; change (Z.of_nat 128) with 128 in *;
    repeat split; Z.div_mod_to_equations; lia.
Qed.

Lemma streamed_packable block_fn v m d :
  streamed block_fn v m d → (word_bits v = 64 → len m < 2 ^ 64) → packable v d.
Proof.
  intros (Ht & _ & Hnx & _ & Hbits) Hbound. split; [exact Ht|].
  destruct Ht as (_ & _ & Hnlr & Hnhr & _ & _).
  rewrite Nat2Z.inj_mod in Hnx. fold (len m) in Hnx.
  assert (0 ≤ len m) as Hm by (unfold len; lia).
  unfold kept_high.
  destruct v; simpl word_bits in *; simpl block_len in *;
    change (Z.of_nat 64) with 64 in *; change (Z.of_nat 128) with 128 in *;
    try specialize (Hbound eq_refl);
    repeat split; Z.div_mod_to_equations; lia.
Qed.
Ltac walk_binds :=
  repeat match goal with
  | |- (?m ≫= _) = _ → _ => destruct m as [?|?]; simpl; [|discriminate]
  | |- (match ?a with (_, _) => _ end) = _ → _ => destruct a; simpl
  | |- (let '(_, _) := ?a in _) = _ → _ => destruct a; simpl
  end.

Lemma MarshalBinary_nil_error v s b e :
  hash_MarshalBinary v s = Ok (b, e) → e = nil_error.
Proof.
  destruct v; simpl;
    unfold sha1Hash_MarshalBinary, sha224Hash_MarshalBinary, sha256Hash_MarshalBinary,
      sha384Hash_MarshalBinary, sha512Hash_MarshalBinary;
    cbv zeta; walk_binds; intros [= _ <-]; reflexivity.
Qed.

(** ** Small runs *)

Example appendUint32_example :
  appendUint32 [] 0x67452301 = Ok [Byte.x67; Byte.x45; Byte.x23; Byte.x01].
Proof. reflexivity. Qed.

Example consumeUint32_example :
  consumeUint32 [Byte.x67; Byte.x45; Byte.x23; Byte.x01; Byte.xff] = Ok ([Byte.xff], 0x67452301).
Proof. reflexivity. Qed.

Example consumeUint64_example :
  consumeUint64 (be_word 8 0x0102030405060708 ++ [Byte.x09]) = Ok ([Byte.x09], 0x0102030405060708).
Proof. vm_compute. reflexivity. Qed.

Example marshal_new_sha1 :
  hash_MarshalBinary Sha1 (hash_New (boringcrypto toy_block_fn) Sha1)
  = Ok ([Byte.x73; Byte.x68; Byte.x61; Byte.x01;
         Byte.x67; Byte.x45; Byte.x23; Byte.x01; Byte.xef; Byte.xcd; Byte.xab; Byte.x89;
         Byte.x98; Byte.xba; Byte.xdc; Byte.xfe; Byte.x10; Byte.x32; Byte.x54; Byte.x76;
         Byte.xc3; Byte.xd2; Byte.xe1; Byte.xf0]
        ++ replicate 64 Byte.x00 ++ replicate 8 Byte.x00, nil_error).
Proof. vm_compute. reflexivity. Qed.

Example marshal_panics_on_overlong_count :
  hash_MarshalBinary Sha1
    {| ctx := {| h := iv Sha1; nl := 0; nh := 0; x := replicate 64 Byte.x00; nx := 65 |};
       out := [] |}
  = Panic "slice bounds out of range".
Proof. vm_compute. reflexivity. Qed.

Example write_split_example :
  digest_after toy_block_fn Sha256 [replicate 60 Byte.x61; replicate 10 Byte.x62] []
  = digest_after toy_block_fn Sha256 [replicate 60 Byte.x61 ++ replicate 10 Byte.x62] [].
Proof. vm_compute. reflexivity. Qed.

(** * The claims *)

(** C2 — For every HashContext, [MarshalBinary] is a function of the context
    alone, returns no error (no context makes it return one), and its output
    is exactly the 4-byte tag of the
    variant, the chaining values as big-endian words (5x4, 8x4 or 8x8 bytes),
    the valid bytes of the buffer padded with zeros to the block size (64 or
    128), and the 8-byte big-endian packed length: 96, 108 or 204 bytes. *)
Theorem MarshalBinary_layout (v : alg) (s : shaHash) :
  HashContext v (ctx s) →
  let d := ctx s in
  let bytes :=
    magic v
    ++ concat (be_word (word_bytes v) <$> h d)
    ++ (take (Z.to_nat (nx d)) (x d) ++ replicate (block_len v - Z.to_nat (nx d)) Byte.x00)
    ++ be_word 8 (pack_len v (nl d) (nh d)) in
  hash_MarshalBinary v s = Ok (bytes, nil_error)
  ∧ (∀ s', ctx s' = ctx s → hash_MarshalBinary v s' = hash_MarshalBinary v s)
  ∧ (∀ s0 b e, hash_MarshalBinary v s0 = Ok (b, e) → e = nil_error)
  ∧ length (magic v) = 4%nat
  ∧ length (concat (be_word (word_bytes v) <$> h d))
      = match v with Sha1 => 5 * 4 | Sha224 | Sha256 => 8 * 4 | Sha384 | Sha512 => 8 * 8 end%nat
  ∧ length (take (Z.to_nat (nx d)) (x d) ++ replicate (block_len v - Z.to_nat (nx d)) Byte.x00)
      = match v with Sha1 | Sha224 | Sha256 => 64 | Sha384 | Sha512 => 128 end%nat
  ∧ length (be_word 8 (pack_len v (nl d) (nh d))) = 8%nat
  ∧ len bytes = marshaledSize v
  ∧ marshaledSize v = match v with Sha1 => 96 | Sha224 | Sha256 => 108 | Sha384 | Sha512 => 204 end.
Proof.
  intros [Ht Hnx]. cbv zeta.
  destruct Ht as (Hlh & _ & _ & _ & Hlx & Hnxr).
  pose proof (MarshalBinary_snapshot v s Hlh Hlx ltac:(lia)) as Hm.
  split; [exact Hm|].
  split.
  { intros s' Hs'. rewrite Hm. rewrite <- Hs'.
    apply MarshalBinary_snapshot; rewrite Hs'; [assumption|assumption|lia]. }
  split; [intros s0 b e; apply MarshalBinary_nil_error|].
  split; [destruct v; reflexivity|].
  split; [rewrite length_concat_words, Hlh; destruct v; reflexivity|].
  split.
  { rewrite length_app, length_take, length_replicate, Hlx.
    assert (block_len v = match v with Sha1 | Sha224 | Sha256 => 64 | Sha384 | Sha512 => 128 end%nat)
      as <- by (destruct v; reflexivity).
    lia. }
  split; [apply length_be_word|].
  split; [apply snapshot_length; [assumption|lia|assumption]|].
  destruct v; reflexivity.
Qed.

(** A new SHA-256 adapter marshals to 108 bytes. *)
Lemma MarshalBinary_layout_witness :
  ∃ b, hash_MarshalBinary Sha256 (hash_New (boringcrypto toy_block_fn) Sha256) = Ok (b, nil_error)
       ∧ len b = 108.
Proof.
  destruct (MarshalBinary_layout Sha256 (hash_New (boringcrypto toy_block_fn) Sha256))
    as (Hm & _ & _ & _ & _ & _ & _ & Hlen & _).
  - split; [|simpl; lia].
    unfold ctx_typed. simpl. repeat split; try lia. repeat constructor; lia.
  - eexists. split; [exact Hm|exact Hlen].
Defined.
Lemma identifier_size_distinct v : identifier_error v ≠ size_error v.
Proof. destruct v; discriminate. Qed.

(** C3 — For every variant and every input, [UnmarshalBinary] returns the
    identifier error exactly when the input is shorter than 4 bytes or does
    not start with the tag of the variant; otherwise the size error exactly
    when its length is not the marshaled size of the variant; otherwise it
    succeeds.  The two errors are distinct. *)
Theorem UnmarshalBinary_errors (v : alg) (recv : shaHash) (b : list byte) :
  length (h (ctx recv)) = word_count v →
  length (x (ctx recv)) = block_len v →
  let bad_identifier := len b < 4 ∨ take 4 b ≠ magic v in
  let bad_size := len b ≠ marshaledSize v in
  hash_UnmarshalBinary v recv b =
    (if decide bad_identifier then Ok (recv, errors_New (identifier_error v))
     else if decide bad_size then Ok (recv, errors_New (size_error v))
     else Ok (set_ctx recv (restored v b), nil_error))
  ∧ (hash_UnmarshalBinary v recv b = Ok (recv, errors_New (identifier_error v))
       ↔ bad_identifier)
  ∧ (hash_UnmarshalBinary v recv b = Ok (recv, errors_New (size_error v))
       ↔ ¬ bad_identifier ∧ bad_size)
  ∧ ((∃ s', hash_UnmarshalBinary v recv b = Ok (s', nil_error))
       ↔ ¬ bad_identifier ∧ ¬ bad_size)
  ∧ identifier_error v ≠ size_error v.
Proof.
  intros Hh Hx. cbv zeta.
  pose proof (identifier_size_distinct v) as Hne.
  assert (hash_UnmarshalBinary v recv b =
    (if decide (len b < 4 ∨ take 4 b ≠ magic v) then Ok (recv, errors_New (identifier_error v))
     else if decide (len b ≠ marshaledSize v) then Ok (recv, errors_New (size_error v))
     else Ok (set_ctx recv (restored v b), nil_error))) as Hu.
  { destruct (decide _) as [Hid|Hid]; [apply UnmarshalBinary_identifier, Hid|].
    assert (4 ≤ len b ∧ take 4 b = magic v) as [Hl Hm].
    { split; [lia|]. destruct (decide (take 4 b = magic v)); [assumption|tauto]. }
    destruct (decide _) as [Hsz|Hsz]; [apply UnmarshalBinary_size; assumption|].
    apply UnmarshalBinary_restored; try assumption. lia. }
  split; [exact Hu|]. rewrite Hu.
  destruct (decide (len b < 4 ∨ take 4 b ≠ magic v)) as [Hid|Hid];
    [|destruct (decide (len b ≠ marshaledSize v)) as [Hsz|Hsz]].
  all: repeat split; intros;
    repeat match goal with
    | H : _ ∧ _ |- _ => destruct H
    | H : ∃ _, _ |- _ => destruct H
    | H : Ok _ = Ok _ |- _ => injection H as ?
    end;
    try tauto; try congruence; try discriminate; eauto.
Qed.

(** A SHA-256 tag is refused by a SHA-1 adapter with the identifier error. *)
Lemma UnmarshalBinary_errors_witness :
  hash_UnmarshalBinary Sha1 (hash_new Sha1) [Byte.x73; Byte.x68; Byte.x61; Byte.x03]
    = Ok (hash_new Sha1, errors_New "crypto/sha1: invalid hash state identifier").
Proof.
  destruct (UnmarshalBinary_errors Sha1 (hash_new Sha1) [Byte.x73; Byte.x68; Byte.x61; Byte.x03])
    as (_ & Hid & _); [reflexivity|reflexivity|].
  apply Hid. right. discriminate.
Defined.
Lemma UnmarshalBinary_returns v recv b s' e :
  hash_UnmarshalBinary v recv b = Ok (s', e) →
  (e = errors_New (identifier_error v) ∧ s' = recv ∧ (len b < 4 ∨ take 4 b ≠ magic v))
  ∨ (e = errors_New (size_error v) ∧ s' = recv ∧ len b ≠ marshaledSize v)
  ∨ e = nil_error.
Proof.
  destruct (decide (len b < 4 ∨ take 4 b ≠ magic v)) as [Hid|Hid].
  { rewrite UnmarshalBinary_identifier by exact Hid. intros [= <- <-]. left. auto. }
  assert (4 ≤ len b ∧ take 4 b = magic v) as [Hl Hm].
  { split; [lia|]. destruct (decide (take 4 b = magic v)); [assumption|tauto]. }
  destruct (decide (len b ≠ marshaledSize v)) as [Hsz|Hsz].
  { rewrite UnmarshalBinary_size by assumption. intros [= <- <-]. right. left. auto. }
  assert (len b = marshaledSize v) as Hsz' by lia.
  intros Hu. right. right. revert Hu.
  destruct v; simpl in *;
    unfold sha1Hash_UnmarshalBinary, sha224Hash_UnmarshalBinary, sha256Hash_UnmarshalBinary,
      sha384Hash_UnmarshalBinary, sha512Hash_UnmarshalBinary;
    change (len sha1Magic) with 4; change (len magic224) with 4;
    change (len magic256) with 4; change (len magic512) with 4;
    simpl length;
    try rewrite (bool_decide_false (len b < 4)) by lia;
    rewrite (bool_decide_true (take 4 b = _)) by assumption;
    rewrite (bool_decide_true (len b = _)) by assumption;
    cbn [orb negb]; cbv zeta;
    walk_binds; intros [= _ <-]; reflexivity.
Qed.

(** C9 — [UnmarshalBinary] is atomic on failure: whenever it returns an
    error, of either kind, the receiver is left as it was, every check coming
    before the first write to a field. *)
Theorem UnmarshalBinary_failure_atomic (v : alg) (recv : shaHash) (b : list byte)
    (s' : shaHash) (msg : string) :
  hash_UnmarshalBinary v recv b = Ok (s', errors_New msg) →
  s' = recv ∧ (msg = identifier_error v ∨ msg = size_error v).
Proof.
  intros Hu. apply UnmarshalBinary_returns in Hu as [(He & Hs & _)|[(He & Hs & _)|He]].
  - injection He as ->. auto.
  - injection He as ->. auto.
  - discriminate.
Qed.

(** A snapshot of five bytes with the SHA-512 tag: size error, receiver kept. *)
Lemma UnmarshalBinary_failure_atomic_witness :
  hash_new Sha512 = hash_new Sha512
  ∧ ("crypto/sha512: invalid hash state size"%string = identifier_error Sha512
     ∨ "crypto/sha512: invalid hash state size"%string = size_error Sha512).
Proof.
  apply (UnmarshalBinary_failure_atomic Sha512 (hash_new Sha512)
           [Byte.x73; Byte.x68; Byte.x61; Byte.x07; Byte.x00]).
  reflexivity.
Defined.
(** C4 — The packed length field is exactly invertible: for a context whose
    counters and buffer count stand for a total below 2^61 bytes, the field
    [nl >> 3 | nh << 29] (or [nl >> 3 | nh << 61]) is that total, the decode
    [n << 3], [n >> 29] (or [n >> 61]) and [uint32(n) % 64] (or [% 128])
    gives back [nl], [nh] and the buffer count, and so does unmarshaling the
    marshaled context. *)
Theorem length_field_invertible (v : alg) (s recv : shaHash) (total : Z) :
  ctx_typed v (ctx s) →
  counts_bytes v (ctx s) total →
  0 ≤ total < 2 ^ 61 →
  length (h (ctx recv)) = word_count v →
  length (x (ctx recv)) = block_len v →
  let n := pack_len v (nl (ctx s)) (nh (ctx s)) in
  n = total
  ∧ unpack_nl v n = nl (ctx s)
  ∧ unpack_nh v n = nh (ctx s)
  ∧ unpack_nx v n = nx (ctx s)
  ∧ ∃ b s', hash_MarshalBinary v s = Ok (b, nil_error)
            ∧ drop (length b - 8) b = be_word 8 n
            ∧ hash_UnmarshalBinary v recv b = Ok (s', nil_error)
            ∧ nl (ctx s') = nl (ctx s)
            ∧ nh (ctx s') = nh (ctx s)
            ∧ nx (ctx s') = nx (ctx s).
Proof.
  intros Ht Hc Htot Hrh Hrx n.
  pose proof (counts_packable v _ total Ht Hc Htot) as Hp.
  pose proof Hp as (_ & Hnx & Hnl8 & Hkept & Hcnt).
  pose proof Ht as (Hlh & _ & Hnlr & Hnhr & Hlx & Hnxr).
  destruct (unpack_pack v _ _ Hnlr Hnhr) as (Hu1 & Hu2 & Hu3).
  unfold uint64 in Hu1, Hu2, Hu3.
  rewrite Z.mod_small in Hu1, Hu2, Hu3 by (apply pack_len_range; assumption).
  fold n in Hu1, Hu2, Hu3.
  assert (n = total) as Hn.
  { subst n. rewrite pack_len_value by assumption. destruct Hc as [Hbits _].
    rewrite Hkept. clear - Hbits Hnl8 Hnlr Hnhr Htot.
    destruct v; simpl word_bits in *; simpl Z.sub; Z.div_mod_to_equations; lia. }
  split; [exact Hn|]. split; [lia|]. split; [lia|]. split; [lia|].
  destruct s as [d o]. simpl ctx in *.
  destruct (roundtrip_packable v d recv o) as (s' & Hm & Hun & _ & He & _);
    [exact Hp|assumption|assumption|].
  destruct He as (_ & Henl & Henh & Henx & _).
  exists (snapshot v d), s'. split; [exact Hm|].
  split.
  { unfold snapshot. rewrite !app_assoc.
    rewrite length_app, length_be_word, Nat.add_sub.
    rewrite drop_app_length. reflexivity. }
  split; [exact Hun|]. auto.
Qed.

(** A SHA-1 context after 67 bytes: 536 bits, 3 bytes buffered. *)
Lemma length_field_invertible_witness :
  pack_len Sha1 0x218 0 = 67
  ∧ unpack_nl Sha1 67 = 0x218 ∧ unpack_nh Sha1 67 = 0 ∧ unpack_nx Sha1 67 = 3.
Proof.
  destruct (length_field_invertible Sha1
              {| ctx := {| h := iv Sha1; nl := 0x218; nh := 0;
                           x := replicate 64 Byte.x61; nx := 3 |};
                 out := [] |} (hash_new Sha1) 67) as (Hn & H1 & H2 & H3 & _).
  - unfold ctx_typed. simpl. repeat split; try lia. repeat constructor; lia.
  - split; reflexivity.
  - lia.
  - reflexivity.
  - reflexivity.
  - simpl in Hn, H1, H2, H3. rewrite Hn in H1, H2, H3. auto.
Defined.
Lemma length_list_byte_of_string (s : string) :
  length (list_byte_of_string s) = String.length s.
Proof.
  unfold list_byte_of_string. rewrite length_map.
  induction s as [|c s IH]; simpl; [reflexivity|]. rewrite IH. reflexivity.
Qed.

(** C5 — [Sum] never changes the receiver: [Final] runs on a copy, whatever
    it does to the context it is given.  A [Sum] that returns leaves the
    adapter as it was and returns the digest after [dst]; a second [Sum]
    returns the same bytes, and a [Write] after it starts from the state
    before it. *)
Theorem Sum_leaves_receiver (C : alg → Primitive) (v : alg) (s t : shaHash)
    (dst sum : list byte) :
  hash_Sum C v s dst = Ok (t, sum) →
  t = s
  ∧ (∃ r c, Final (C v) (ctx s) = (r, drop (length dst) sum, c) ∧ r ≠ 0)
  ∧ take (length dst) sum = dst
  ∧ hash_Sum C v t dst = Ok (t, sum)
  ∧ (∀ p, hash_Write C v t p = hash_Write C v s p).
Proof.
  intros Hs. rewrite hash_Sum_unfold in Hs.
  destruct (Final (C v) (ctx s)) as [[r digest] c] eqn:Hf.
  case_bool_decide as Hr; [discriminate|]. injection Hs as <- <-.
  split; [reflexivity|]. split.
  { exists r, c. rewrite drop_app_length. auto. }
  split; [apply take_app_length|]. split; [|reflexivity].
  rewrite hash_Sum_unfold, Hf. rewrite bool_decide_false by exact Hr. reflexivity.
Qed.

(** [Sum] on a new SHA-1 adapter, twice. *)
Lemma Sum_leaves_receiver_witness :
  hash_Sum (boringcrypto toy_block_fn) Sha1 (hash_New (boringcrypto toy_block_fn) Sha1)
      [Byte.x01]
    = Ok (hash_New (boringcrypto toy_block_fn) Sha1,
          Byte.x01 :: concat (replicate 5 [Byte.x00; Byte.x00; Byte.x00; Byte.x80])).
Proof.
  apply (Sum_leaves_receiver (boringcrypto toy_block_fn) Sha1
           (hash_New (boringcrypto toy_block_fn) Sha1)).
  vm_compute. reflexivity.
Defined.

(** C8 — [Write] returns the length of its input and a nil error; on an
    empty input it returns at once, whatever the primitive would do; its one
    failure is the panic on [Update] reporting failure, never a returned
    error; and on a HashContext the primitive does not fail. *)
Theorem Write_returns_length (block_fn : alg → list Z → list byte → list Z)
    (v : alg) (s : shaHash) (p : list byte) :
  HashContext v (ctx s) →
  (∃ s', hash_Write (boringcrypto block_fn) v s p = Ok (s', (len p, nil_error)))
  ∧ (∀ C s, hash_Write C v s [] = Ok (s, (0, nil_error)))
  ∧ (∀ C s p s' n err, hash_Write C v s p = Ok (s', (n, err)) → n = len p ∧ err = nil_error)
  ∧ (∀ C s p msg, hash_Write C v s p = Panic msg ↔
       len p > 0 ∧ (Update (C v) (ctx s) p).1 = 0 ∧ msg = update_failed v).
Proof.
  intros [Ht Hnx]. split; [|split; [|split]].
  - rewrite hash_Write_unfold. case_bool_decide; [|eauto].
    simpl. unfold prim_Update. destruct Ht as (_ & _ & _ & _ & _ & Hnxr).
    rewrite decide_True by lia. rewrite bool_decide_false by lia. eauto.
  - intros C s0. rewrite hash_Write_unfold. reflexivity.
  - intros C s0 p0 s' n err. rewrite hash_Write_unfold.
    case_bool_decide.
    + destruct (Update _ _ _) as [r c]. case_bool_decide; [discriminate|].
      intros [= _ <- <-]. auto.
    + intros [= _ <- <-]. auto.
  - intros C s0 p0 msg. rewrite hash_Write_unfold.
    case_bool_decide.
    + destruct (Update _ _ _) as [r c]. simpl. case_bool_decide.
      * split; [intros [= <-]; auto|intros (_ & _ & ->); reflexivity].
      * split; [discriminate|intros (_ & ? & _); contradiction].
    + split; [discriminate|intros (? & _); contradiction].
Qed.

(** Writing three bytes to a new SHA-1 adapter. *)
Lemma Write_returns_length_witness :
  ∃ s', hash_Write (boringcrypto toy_block_fn) Sha1 (hash_New (boringcrypto toy_block_fn) Sha1)
          [Byte.x61; Byte.x62; Byte.x63] = Ok (s', (3, nil_error)).
Proof.
  apply (Write_returns_length toy_block_fn Sha1 (hash_New (boringcrypto toy_block_fn) Sha1)
           [Byte.x61; Byte.x62; Byte.x63]).
  split; [|simpl; lia].
  unfold ctx_typed. simpl. repeat split; try lia. repeat constructor; lia.
Defined.

(** C10 — For the adapters that have them (all but SHA-224), [WriteString]
    is [Write] on the bytes of the string, result included, and [WriteByte]
    is [Write] on the one-byte slice, returning nil. *)
Theorem WriteString_WriteByte_agree (C : alg → Primitive) (v : alg) (s : shaHash) :
  match hash_WriteString C v with
  | Some write_string =>
      ∀ str, write_string s str = hash_Write C v s (list_byte_of_string str)
             ∧ len (list_byte_of_string str) = Z.of_nat (String.length str)
  | None => v = Sha224
  end
  ∧ match hash_WriteByte C v with
    | Some write_byte =>
        ∀ c, write_byte s c =
               match hash_Write C v s [c] with
               | Ok (s', _) => Ok (s', nil_error)
               | Panic msg => Panic msg
               end
    | None => v = Sha224
    end.
Proof.
  split.
  - destruct v; try reflexivity; intros str;
      (split; [|unfold len; rewrite length_list_byte_of_string; reflexivity]);
      simpl; unfold sha1Hash_WriteString, sha1Hash_Write, sha256Hash_WriteString, sha256Hash_Write,
        sha384Hash_WriteString, sha384Hash_Write, sha512Hash_WriteString, sha512Hash_Write, len;
      rewrite length_list_byte_of_string; reflexivity.
  - destruct v; try reflexivity; intros c; simpl;
      unfold sha1Hash_WriteByte, sha1Hash_Write, sha256Hash_WriteByte, sha256Hash_Write,
        sha384Hash_WriteByte, sha384Hash_Write, sha512Hash_WriteByte, sha512Hash_Write;
      simpl; destruct (Update _ _ _) as [r c']; case_bool_decide; reflexivity.
Qed.
Lemma digest_fits v : (digest_len v ≤ word_count v * word_bytes v)%nat.
Proof. destruct v; simpl; lia. Qed.

Lemma hash_Sum_streamed block_fn v m s dst :
  streamed block_fn v m (ctx s) →
  ∃ digest, hash_Sum (boringcrypto block_fn) v s dst = Ok (s, dst ++ digest)
            ∧ length digest = digest_len v.
Proof.
  intros Hs. pose proof (streamed_HashContext _ _ _ _ Hs) as [Ht Hnx].
  destruct Ht as (Hlh & Hfh & _ & _ & _ & Hnxr).
  rewrite hash_Sum_unfold. simpl. unfold prim_Final.
  rewrite decide_True by lia. rewrite bool_decide_false by lia.
  eexists. split; [reflexivity|].
  rewrite length_take, length_concat_words.
  pose proof (absorb_typed block_fn v (h (ctx s)) (final_blocks v (ctx s))
                (length (final_blocks v (ctx s)) / block_len v) (conj Hlh Hfh)) as [Hl _].
  rewrite Hl. pose proof (digest_fits v). lia.
Qed.

(** C6 — Incremental hashing does not depend on how the input is split:
    writing [m1] then [m2] to a new adapter and writing [m1 ++ m2] at once
    give the same [Sum], a digest of the variant's size after [dst]. *)
Theorem incremental_split (block_fn : alg → list Z → list byte → list Z)
    (v : alg) (m1 m2 dst : list byte) :
  digest_after block_fn v [m1; m2] dst = digest_after block_fn v [m1 ++ m2] dst
  ∧ ∃ digest, digest_after block_fn v [m1 ++ m2] dst = Ok (dst ++ digest)
              ∧ length digest = digest_len v.
Proof.
  pose proof (hash_New_streamed block_fn v) as H0.
  destruct (hash_Writes_streamed block_fn v [] _ [m1; m2] H0) as (s1 & Hw1 & Hs1).
  destruct (hash_Writes_streamed block_fn v [] _ [m1 ++ m2] H0) as (s2 & Hw2 & Hs2).
  simpl concat in Hs1, Hs2. rewrite app_nil_l, app_nil_r in Hs1, Hs2.
  pose proof (streamed_eqv _ _ _ _ _ Hs1 Hs2) as He.
  destruct (hash_Sum_streamed block_fn v _ s1 dst Hs1) as (dg1 & Hd1 & _).
  destruct (hash_Sum_streamed block_fn v _ s2 dst Hs2) as (dg2 & Hd2 & Hl2).
  pose proof (hash_Sum_eqv block_fn v s1 s2 dst He) as Hse.
  rewrite Hd1, Hd2 in Hse. destruct Hse as (Heq & _).
  unfold digest_after. rewrite Hw1, Hw2. simpl. rewrite Hd1, Hd2. simpl.
  split; [rewrite Heq; reflexivity|]. eauto.
Qed.

(** C7 — Every context reached from a new adapter by [Write] calls has a
    buffer count below the block size (64 or 128), the number of bytes
    written modulo the block size.  A SHA-512 context that has been written
    exactly 128 bytes has a buffer count of zero and marshals with 128 zero
    bytes as its buffer. *)
Theorem buffer_count_below_block (block_fn : alg → list Z → list byte → list Z)
    (v : alg) (ps : list (list byte)) (s : shaHash) :
  hash_Writes (boringcrypto block_fn) v (hash_New (boringcrypto block_fn) v) ps = Ok s →
  0 ≤ nx (ctx s) < hash_BlockSize v s
  ∧ hash_BlockSize v s = match v with Sha1 | Sha224 | Sha256 => 64 | Sha384 | Sha512 => 128 end
  ∧ nx (ctx s) = len (concat ps) mod hash_BlockSize v s
  ∧ (v = Sha512 → len (concat ps) = 128 →
       nx (ctx s) = 0
       ∧ ∃ b, hash_MarshalBinary Sha512 s = Ok (b, nil_error)
              ∧ take 128 (drop (4 + 8 * 8) b) = replicate 128 Byte.x00).
Proof.
  intros Hw.
  pose proof (hash_New_streamed block_fn v) as H0.
  destruct (hash_Writes_streamed block_fn v [] _ ps H0) as (s1 & Hw1 & Hs).
  rewrite Hw in Hw1. injection Hw1 as <-. rewrite app_nil_l in Hs.
  pose proof (streamed_HashContext _ _ _ _ Hs) as [Ht Hlt].
  pose proof Ht as (Hlh & _ & _ & _ & Hlx & Hnxr).
  destruct Hs as (_ & _ & Hnx & _).
  assert (hash_BlockSize v s = Z.of_nat (block_len v)) as HB by (destruct v; reflexivity).
  rewrite HB. split; [lia|]. split; [destruct v; reflexivity|].
  split; [rewrite Hnx, Nat2Z.inj_mod; reflexivity|].
  intros -> Hlen.
  assert (nx (ctx s) = 0) as Hz.
  { rewrite Hnx. unfold len in Hlen.
    replace (length (concat ps)) with 128%nat by lia. reflexivity. }
  split; [exact Hz|].
  eexists. split; [apply MarshalBinary_snapshot; [assumption|assumption|lia]|].
  unfold snapshot. rewrite Hz. simpl magic.
  rewrite drop_app_add' by reflexivity.
  rewrite drop_app_length' by (rewrite length_concat_words, Hlh; reflexivity).
  reflexivity.
Qed.

(** 100 then 28 bytes written to a SHA-512 adapter leave nothing buffered. *)
Lemma buffer_count_below_block_witness :
  ∃ s, hash_Writes (boringcrypto toy_block_fn) Sha512
         (hash_New (boringcrypto toy_block_fn) Sha512)
         [replicate 100 Byte.x61; replicate 28 Byte.x62] = Ok s
       ∧ nx (ctx s) = 0.
Proof.
  eexists. split; [vm_compute; reflexivity|].
  refine (proj1 (proj2 (proj2 (proj2 (buffer_count_below_block toy_block_fn Sha512
            [replicate 100 Byte.x61; replicate 28 Byte.x62] _ _))) eq_refl eq_refl)).
  vm_compute. reflexivity.
Defined.
(** C1, as amended — For every HashContext reached from a new adapter by
    [Write] calls (of fewer than 2^64 bytes in all for SHA-384 and SHA-512),
    [UnmarshalBinary] of the output of [MarshalBinary], called on an adapter
    that has itself been [Reset] (as every adapter of [NewSHA1] ...
    [NewSHA512] has), returns no error and yields a context state-identical
    to the original, so that every later sequence of [Write] and [Sum] calls
    gives on the restored adapter what it gives on the original.

    State-identical is stated in full: the chaining values, the counters,
    the buffer count and the buffered bytes are those of the original; the
    rest of the restored buffer is given byte by byte, and the two contexts
    are equal field by field wherever the original buffer is zero past its
    count; [MarshalBinary] on the restored adapter returns the same bytes.
    The receiver may have been written to after its [Reset]; its output array
    is kept. *)
Theorem marshal_roundtrip (block_fn : alg → list Z → list byte → list Z)
    (v : alg) (ps qs : list (list byte)) (r recv : shaHash) :
  (word_bits v = 64 → len (concat ps) < 2 ^ 64) →
  hash_Writes (boringcrypto block_fn) v (hash_Reset (boringcrypto block_fn) v r) qs = Ok recv →
  ∃ s b s',
    hash_Writes (boringcrypto block_fn) v (hash_New (boringcrypto block_fn) v) ps = Ok s
    ∧ hash_MarshalBinary v s = Ok (b, nil_error)
    ∧ hash_UnmarshalBinary v recv b = Ok (s', nil_error)
    ∧ ctx_eqv (ctx s) (ctx s')
    ∧ x (ctx s') = take (Z.to_nat (nx (ctx s))) (x (ctx s))
                     ++ replicate (block_len v - Z.to_nat (nx (ctx s))) Byte.x00
    ∧ (drop (Z.to_nat (nx (ctx s))) (x (ctx s))
         = replicate (block_len v - Z.to_nat (nx (ctx s))) Byte.x00 →
       ctx s' = ctx s)
    ∧ out s' = out recv
    ∧ hash_MarshalBinary v s' = Ok (b, nil_error)
    ∧ ∀ calls, hash_run (boringcrypto block_fn) v s' calls
               = hash_run (boringcrypto block_fn) v s calls.
Proof.
  intros Hbound Hrecv.
  destruct (hash_Reset_Writes_typed block_fn v r qs recv Hrecv) as [Hrh Hrx].
  pose proof (hash_New_streamed block_fn v) as H0.
  destruct (hash_Writes_streamed block_fn v [] _ ps H0) as (s & Hw & Hs).
  rewrite app_nil_l in Hs.
  pose proof (streamed_packable _ _ _ _ Hs Hbound) as Hp.
  destruct s as [d o]. simpl ctx in *.
  destruct (roundtrip_packable v d recv o Hp Hrh Hrx) as (s' & Hm & Hu & Ho & He & Hx).
  pose proof Hp as ((Hlh & _ & _ & _ & Hlx & Hnx0) & Hnx & _).
  exists {| ctx := d; out := o |}, (snapshot v d), s'. simpl ctx.
  split; [exact Hw|]. split; [exact Hm|]. split; [exact Hu|].
  split; [exact He|]. split; [exact Hx|].
  split.
  { intros Hz. rewrite <- Hz, take_drop in Hx.
    destruct He as (Hh & Hnl & Hnh & Hnxe & _).
    destruct (ctx s'), d. simpl in *. congruence. }
  split; [exact Ho|].
  split.
  { rewrite (snapshot_eqv v _ _ He).
    destruct He as (Hh & _ & _ & Hnxe & _).
    apply MarshalBinary_snapshot.
    - rewrite <- Hh. exact Hlh.
    - rewrite Hx, length_app, length_take, length_replicate. lia.
    - rewrite <- Hnxe. lia. }
  intros calls. symmetry. apply hash_run_eqv. exact He.
Qed.

(** The round trip of a SHA-512 adapter after writes of 100 and 50 bytes,
    into a new adapter. *)
Lemma marshal_roundtrip_witness :
  ∃ s b s',
    hash_Writes (boringcrypto toy_block_fn) Sha512 (hash_New (boringcrypto toy_block_fn) Sha512)
      [replicate 100 Byte.x61; replicate 50 Byte.x62] = Ok s
    ∧ hash_MarshalBinary Sha512 s = Ok (b, nil_error)
    ∧ hash_UnmarshalBinary Sha512 (hash_New (boringcrypto toy_block_fn) Sha512) b
      = Ok (s', nil_error)
    ∧ ctx_eqv (ctx s) (ctx s')
    ∧ x (ctx s') = take (Z.to_nat (nx (ctx s))) (x (ctx s))
                     ++ replicate (block_len Sha512 - Z.to_nat (nx (ctx s))) Byte.x00
    ∧ (drop (Z.to_nat (nx (ctx s))) (x (ctx s))
         = replicate (block_len Sha512 - Z.to_nat (nx (ctx s))) Byte.x00 →
       ctx s' = ctx s)
    ∧ out s' = out (hash_New (boringcrypto toy_block_fn) Sha512)
    ∧ hash_MarshalBinary Sha512 s' = Ok (b, nil_error)
    ∧ ∀ calls, hash_run (boringcrypto toy_block_fn) Sha512 s' calls
               = hash_run (boringcrypto toy_block_fn) Sha512 s calls.
Proof.
  apply (marshal_roundtrip toy_block_fn Sha512
           [replicate 100 Byte.x61; replicate 50 Byte.x62] []
           (hash_new Sha512) (hash_New (boringcrypto toy_block_fn) Sha512)).
  - intros _. vm_compute. reflexivity.
  - reflexivity.
Defined.

(** What the primitive library leaves in the buffer past the count is its
    own affair: here the 23rd byte of the buffer is left over from the first
    block, and the snapshot, which pads the buffered bytes with zeros,
    restores it as zero. *)
Example roundtrip_clears_stale_bytes :
  (s ← hash_Writes (boringcrypto toy_block_fn) Sha512
         (hash_New (boringcrypto toy_block_fn) Sha512)
         [replicate 100 Byte.x61; replicate 50 Byte.x62];
   '(b, _) ← hash_MarshalBinary Sha512 s;
   '(s', _) ← hash_UnmarshalBinary Sha512 (hash_New (boringcrypto toy_block_fn) Sha512) b;
   Ok (nx (ctx s), x (ctx s) !! 22%nat, nx (ctx s'), x (ctx s') !! 22%nat))
  = Ok (22, Some Byte.x61, 22, Some Byte.x00).
Proof. vm_compute. reflexivity. Qed.
Lemma length_concat_replicate {A} (a : nat) (l : list A) :
  length (concat (replicate a l)) = (a * length l)%nat.
Proof.
  induction a as [|a IH]; [reflexivity|].
  simpl. rewrite length_app, IH. reflexivity.
Qed.

(** After 2^64 bytes the high counter word of a SHA-512 context is 8; the
    length field has room for its low three bits only, so it is restored as 0
    and the digest of the restored context is that of another length. *)
Lemma roundtrip_drops_high_count (a b : nat) :
  Z.of_nat a * Z.of_nat b = 2 ^ 64 →
  ∃ s bytes s',
    hash_Writes (boringcrypto toy_block_fn) Sha512 (hash_New (boringcrypto toy_block_fn) Sha512)
      (replicate a (replicate b Byte.x00)) = Ok s
    ∧ hash_MarshalBinary Sha512 s = Ok (bytes, nil_error)
    ∧ hash_UnmarshalBinary Sha512 (hash_New (boringcrypto toy_block_fn) Sha512) bytes
      = Ok (s', nil_error)
    ∧ nh (ctx s) = 8
    ∧ nh (ctx s') = 0
    ∧ hash_run (boringcrypto toy_block_fn) Sha512 s' [CallSum []]
      ≠ hash_run (boringcrypto toy_block_fn) Sha512 s [CallSum []].
Proof.
  intros Hab.
  pose proof (hash_New_streamed toy_block_fn Sha512) as H0.
  destruct (hash_Writes_streamed toy_block_fn Sha512 [] _ (replicate a (replicate b Byte.x00)) H0)
    as (s & Hw & Hs).
  rewrite app_nil_l in Hs.
  set (m := concat (replicate a (replicate b Byte.x00))) in *.
  assert (len m = 2 ^ 64) as Hlen.
  { unfold len, m. rewrite length_concat_replicate, length_replicate, Nat2Z.inj_mul. exact Hab. }
  pose proof (streamed_HashContext _ _ _ _ Hs) as [Ht Hlt].
  pose proof Ht as (Hlh & Hfh & Hnlr & Hnhr & Hlx & Hnxr).
  destruct Hs as (_ & _ & Hnx & _ & Hbits).
  rewrite Nat2Z.inj_mod in Hnx. fold (len m) in Hnx. rewrite Hlen in Hnx, Hbits.
  simpl word_bits in *. simpl block_len in *.
  change (Z.of_nat 128) with 128 in *.
  change (2 ^ 64 `mod` 128) with 0 in Hnx.
  change ((8 * 2 ^ 64) `mod` 2 ^ (2 * 64)) with (8 * 2 ^ 64) in Hbits.
  assert (nh (ctx s) = 8 ∧ nl (ctx s) = 0) as [Hnh Hnl] by lia.
  clearbody m. clear Hlen m H0.
  destruct s as [[hh dnl dnh dx dnx] o]. simpl in Hlh, Hfh, Hlx, Hnx, Hnh, Hnl. subst dnl dnh dnx.
  pose proof (MarshalBinary_snapshot Sha512
                {| ctx := {| h := hh; nl := 0; nh := 8; x := dx; nx := 0 |}; out := o |}
                Hlh Hlx ltac:(simpl; lia)) as Hm.
  simpl ctx in Hm.
  set (d := {| h := hh; nl := 0; nh := 8; x := dx; nx := 0 |}) in *.
  pose proof (UnmarshalBinary_restored Sha512 (hash_New (boringcrypto toy_block_fn) Sha512)
                (snapshot Sha512 d)
                eq_refl eq_refl (snapshot_magic _ _)
                (snapshot_length Sha512 d Hlh ltac:(simpl; lia) Hlx)) as Hu.
  rewrite restored_snapshot in Hu by (try assumption; simpl; lia).
  rewrite (fmap_mod_typed Sha512 (h d) Hfh) in Hu.
  exists {| ctx := d; out := o |}, (snapshot Sha512 d). eexists.
  split; [exact Hw|]. split; [exact Hm|]. split; [exact Hu|].
  split; [reflexivity|]. split; [reflexivity|].
  subst d. vm_compute. discriminate.
Qed.

(** C1 as stated fails: a SHA-512 adapter written 2^34 slices of 2^30 bytes
    is not restored by the round trip into a new adapter, and [Sum] tells the
    two apart. *)
Lemma marshal_roundtrip_counterexample :
  ∃ s bytes s',
    hash_Writes (boringcrypto toy_block_fn) Sha512 (hash_New (boringcrypto toy_block_fn) Sha512)
      (replicate (Z.to_nat (2 ^ 34)) (replicate (Z.to_nat (2 ^ 30)) Byte.x00)) = Ok s
    ∧ hash_MarshalBinary Sha512 s = Ok (bytes, nil_error)
    ∧ hash_UnmarshalBinary Sha512 (hash_New (boringcrypto toy_block_fn) Sha512) bytes
      = Ok (s', nil_error)
    ∧ nh (ctx s) = 8
    ∧ nh (ctx s') = 0
    ∧ hash_run (boringcrypto toy_block_fn) Sha512 s' [CallSum []]
      ≠ hash_run (boringcrypto toy_block_fn) Sha512 s [CallSum []].
Proof.
  apply roundtrip_drops_high_count.
  rewrite !Z2Nat.id by lia. reflexivity.
Qed.
(** * Further properties *)

(** ** One-shot digests, [Reset], [Size] *)

Lemma hash_oneshot_unfold C v stack p :
  hash_oneshot C v stack p =
    let '(r, c) := Update (C v) (Init (C v) stack) p in
    if bool_decide (r = 0) then Panic (oneshot_failed v)
    else
      let '(r, digest, _) := Final (C v) c in
      if bool_decide (r = 0) then Panic (oneshot_failed v) else Ok digest.
Proof.
  destruct v; simpl;
    unfold SHA1, SHA224, SHA256, SHA384, SHA512, goboringcrypto_gosha1, goboringcrypto_gosha224,
      goboringcrypto_gosha256, goboringcrypto_gosha384, goboringcrypto_gosha512;
    cbv zeta;
    destruct (Update _ _ _) as [r c]; case_bool_decide; simpl; try reflexivity;
    destruct (Final _ _) as [[r' dg] c']; destruct (bool_decide (r' = 0)); reflexivity.
Qed.

Lemma streamed_digest_eq block_fn v m s s' dst :
  streamed block_fn v m (ctx s) → streamed block_fn v m (ctx s') →
  ∃ digest, hash_Sum (boringcrypto block_fn) v s dst = Ok (s, dst ++ digest)
            ∧ hash_Sum (boringcrypto block_fn) v s' dst = Ok (s', dst ++ digest)
            ∧ length digest = digest_len v.
Proof.
  intros Hs Hs'.
  destruct (hash_Sum_streamed block_fn v m s dst Hs) as (dg & Hd & Hl).
  destruct (hash_Sum_streamed block_fn v m s' dst Hs') as (dg' & Hd' & _).
  pose proof (hash_Sum_eqv block_fn v s s' dst (streamed_eqv _ _ _ _ _ Hs Hs')) as He.
  rewrite Hd, Hd' in He. destruct He as [He _]. apply app_inv_head in He. subst dg'.
  exists dg. auto.
Qed.

(** X1 — The one-shot functions [SHA1] ... [SHA512] return what a new
    adapter returns from [Sum(nil)] after one [Write] of the same bytes, a
    digest of the variant's size, whatever the C helper's local context held
    on entry and also for an empty input (where the helper still calls
    [Update] and [Write] does not). *)
Theorem oneshot_is_streaming (block_fn : alg → list Z → list byte → list Z)
    (v : alg) (stack : shaCtx) (p : list byte) :
  hash_oneshot (boringcrypto block_fn) v stack p = digest_after block_fn v [p] []
  ∧ ∃ digest, hash_oneshot (boringcrypto block_fn) v stack p = Ok digest
              ∧ length digest = digest_len v.
Proof.
  pose proof (prim_Init_streamed block_fn v stack) as Hi.
  destruct (prim_Update_streamed block_fn v [] _ p Hi) as (d' & Hu & Hd').
  pose proof (hash_New_streamed block_fn v) as H0.
  destruct (hash_Writes_streamed block_fn v [] _ [p] H0) as (s & Hw & Hs).
  simpl concat in Hs. rewrite app_nil_r in Hs.
  destruct (streamed_digest_eq block_fn v _ {| ctx := d'; out := [] |} s [] Hd' Hs)
    as (dg & Hd1 & Hd2 & Hl).
  assert (hash_oneshot (boringcrypto block_fn) v stack p = Ok dg) as Ho.
  { rewrite hash_oneshot_unfold. simpl. rewrite Hu. rewrite bool_decide_false by lia.
    rewrite hash_Sum_unfold in Hd1. simpl in Hd1.
    destruct (prim_Final block_fn v d') as [[r dg'] c'].
    case_bool_decide; [discriminate|]. injection Hd1 as ->. reflexivity. }
  split; [|eauto].
  rewrite Ho. unfold digest_after. rewrite Hw. simpl. rewrite Hd2. reflexivity.
Qed.
(** X2 — On every adapter reached from a new one by [Write] calls, [Sum]
    returns [dst] followed by exactly [Size()] bytes: 20, 28, 32, 48 or 64. *)
Theorem Sum_appends_Size (block_fn : alg → list Z → list byte → list Z)
    (v : alg) (ps : list (list byte)) (dst : list byte) (s : shaHash) :
  hash_Writes (boringcrypto block_fn) v (hash_New (boringcrypto block_fn) v) ps = Ok s →
  ∃ digest, hash_Sum (boringcrypto block_fn) v s dst = Ok (s, dst ++ digest)
            ∧ len digest = hash_Size v s
            ∧ hash_Size v s
              = match v with Sha1 => 20 | Sha224 => 28 | Sha256 => 32 | Sha384 => 48 | Sha512 => 64 end.
Proof.
  intros Hw.
  pose proof (hash_New_streamed block_fn v) as H0.
  destruct (hash_Writes_streamed block_fn v [] _ ps H0) as (s1 & Hw1 & Hs).
  rewrite Hw in Hw1. injection Hw1 as <-.
  destruct (hash_Sum_streamed block_fn v _ s dst Hs) as (dg & Hd & Hl).
  exists dg. split; [exact Hd|]. unfold len. rewrite Hl.
  split; destruct v; reflexivity.
Qed.

(** [Sum] on a new SHA-224 adapter appends 28 bytes. *)
Lemma Sum_appends_Size_witness :
  ∃ digest,
    hash_Sum (boringcrypto toy_block_fn) Sha224
      (hash_New (boringcrypto toy_block_fn) Sha224) [Byte.xff] = Ok
        (hash_New (boringcrypto toy_block_fn) Sha224, [Byte.xff] ++ digest)
    ∧ len digest = 28.
Proof.
  destruct (Sum_appends_Size toy_block_fn Sha224 [] [Byte.xff]
              (hash_New (boringcrypto toy_block_fn) Sha224) eq_refl) as (dg & Hd & Hl & _).
  exists dg. split; [exact Hd|exact Hl].
Defined.

(** X3 — [Reset] brings any adapter, whatever its context holds, to the
    context of a new one and keeps its output array: the writes and the [Sum]
    that follow give what they give on a new adapter. *)
Theorem Reset_is_new (block_fn : alg → list Z → list byte → list Z)
    (v : alg) (s : shaHash) (ps : list (list byte)) (dst : list byte) :
  ctx (hash_Reset (boringcrypto block_fn) v s) = ctx (hash_New (boringcrypto block_fn) v)
  ∧ out (hash_Reset (boringcrypto block_fn) v s) = out s
  ∧ (s1 ← hash_Writes (boringcrypto block_fn) v (hash_Reset (boringcrypto block_fn) v s) ps;
     '(_, sum) ← hash_Sum (boringcrypto block_fn) v s1 dst;
     Ok sum) = digest_after block_fn v ps dst.
Proof.
  split; [rewrite hash_Reset_unfold, hash_New_unfold; reflexivity|].
  split; [rewrite hash_Reset_unfold; reflexivity|].
  assert (streamed block_fn v [] (ctx (hash_Reset (boringcrypto block_fn) v s))) as Hi
    by (rewrite hash_Reset_unfold; apply prim_Init_streamed).
  pose proof (hash_New_streamed block_fn v) as H0.
  destruct (hash_Writes_streamed block_fn v [] _ ps Hi) as (s1 & Hw1 & Hs1).
  destruct (hash_Writes_streamed block_fn v [] _ ps H0) as (s2 & Hw2 & Hs2).
  destruct (streamed_digest_eq block_fn v _ s1 s2 dst Hs1 Hs2) as (dg & Hd1 & Hd2 & _).
  unfold digest_after. rewrite Hw1, Hw2. simpl. rewrite Hd1, Hd2. reflexivity.
Qed.

(** X4 — However many [Write] calls the input is cut into, empty ones
    included, the digest and the marshaled snapshot are those of one [Write]
    of the whole input. *)
Theorem writes_split_any (block_fn : alg → list Z → list byte → list Z)
    (v : alg) (ps : list (list byte)) (dst : list byte) :
  digest_after block_fn v ps dst = digest_after block_fn v [concat ps] dst
  ∧ ∃ s1 s2 b,
      hash_Writes (boringcrypto block_fn) v (hash_New (boringcrypto block_fn) v) ps = Ok s1
      ∧ hash_Writes (boringcrypto block_fn) v (hash_New (boringcrypto block_fn) v) [concat ps] = Ok s2
      ∧ hash_MarshalBinary v s1 = Ok (b, nil_error)
      ∧ hash_MarshalBinary v s2 = Ok (b, nil_error).
Proof.
  pose proof (hash_New_streamed block_fn v) as H0.
  destruct (hash_Writes_streamed block_fn v [] _ ps H0) as (s1 & Hw1 & Hs1).
  destruct (hash_Writes_streamed block_fn v [] _ [concat ps] H0) as (s2 & Hw2 & Hs2).
  simpl concat in Hs2. rewrite app_nil_r in Hs2.
  destruct (streamed_digest_eq block_fn v _ s1 s2 dst Hs1 Hs2) as (dg & Hd1 & Hd2 & _).
  split.
  { unfold digest_after. rewrite Hw1, Hw2. simpl. rewrite Hd1, Hd2. reflexivity. }
  exists s1, s2, (snapshot v (ctx s1)).
  split; [exact Hw1|]. split; [exact Hw2|].
  pose proof (streamed_HashContext _ _ _ _ Hs1) as [(Hl1 & _ & _ & _ & Hx1 & Hr1) Hn1].
  pose proof (streamed_HashContext _ _ _ _ Hs2) as [(Hl2 & _ & _ & _ & Hx2 & Hr2) Hn2].
  split; [apply MarshalBinary_snapshot; [assumption|assumption|lia]|].
  rewrite (snapshot_eqv v _ _ (streamed_eqv _ _ _ _ _ Hs1 Hs2)).
  apply MarshalBinary_snapshot; [assumption|assumption|lia].
Qed.

(** X5 — Checkpoint and resume: after writes [ps1] (fewer than 2^64 bytes
    for SHA-384 and SHA-512), marshaling, unmarshaling into another adapter
    of the variant, one that has been [Reset] (as every adapter of [NewSHA1]
    ... [NewSHA512] has) and perhaps written to since, and writing [ps2]
    there gives the [Sum] of the uninterrupted stream [ps1 ++ ps2]. *)
Theorem checkpoint_resume (block_fn : alg → list Z → list byte → list Z)
    (v : alg) (ps1 ps2 qs : list (list byte)) (dst : list byte) (r recv : shaHash) :
  (word_bits v = 64 → len (concat ps1) < 2 ^ 64) →
  hash_Writes (boringcrypto block_fn) v (hash_Reset (boringcrypto block_fn) v r) qs = Ok recv →
  ∃ s b s' s'' digest,
    hash_Writes (boringcrypto block_fn) v (hash_New (boringcrypto block_fn) v) ps1 = Ok s
    ∧ hash_MarshalBinary v s = Ok (b, nil_error)
    ∧ hash_UnmarshalBinary v recv b = Ok (s', nil_error)
    ∧ hash_Writes (boringcrypto block_fn) v s' ps2 = Ok s''
    ∧ hash_Sum (boringcrypto block_fn) v s'' dst = Ok (s'', dst ++ digest)
    ∧ digest_after block_fn v (ps1 ++ ps2) dst = Ok (dst ++ digest).
Proof.
  intros Hbound Hrecv.
  destruct (hash_Reset_Writes_typed block_fn v r qs recv Hrecv) as [Hrh Hrx].
  pose proof (hash_New_streamed block_fn v) as H0.
  destruct (hash_Writes_streamed block_fn v [] _ ps1 H0) as (s & Hw & Hs).
  rewrite app_nil_l in Hs.
  pose proof (streamed_packable _ _ _ _ Hs Hbound) as Hp.
  destruct s as [d o]. simpl ctx in *.
  destruct (roundtrip_packable v d recv o Hp Hrh Hrx) as (s' & Hm & Hu & _ & He & _).
  destruct (hash_Writes_streamed block_fn v _ {| ctx := d; out := o |} ps2 Hs) as (t & Hwt & Hst).
  pose proof (hash_Writes_eqv block_fn v {| ctx := d; out := o |} s' ps2 He) as Hwe.
  rewrite Hwt in Hwe.
  destruct (hash_Writes (boringcrypto block_fn) v s' ps2) as [t'|] eqn:Hwt'; [|contradiction].
  destruct (hash_Sum_streamed block_fn v _ t dst Hst) as (dg & Hd & _).
  pose proof (hash_Sum_eqv block_fn v t t' dst Hwe) as Hse. rewrite Hd in Hse.
  destruct (hash_Sum (boringcrypto block_fn) v t' dst) as [[u r']|] eqn:Hd'; [|contradiction].
  destruct Hse as (<- & _ & ->).
  exists {| ctx := d; out := o |}, (snapshot v d), s', t', dg.
  repeat split; try assumption.
  destruct (hash_Writes_streamed block_fn v [] _ (ps1 ++ ps2) H0) as (w & Hww & Hsw).
  rewrite app_nil_l, concat_app in Hsw.
  destruct (streamed_digest_eq block_fn v _ w t dst Hsw Hst) as (dg' & Hd1 & Hd2 & _).
  rewrite Hd in Hd2. injection Hd2 as Hd2. apply app_inv_head in Hd2. subst dg'.
  unfold digest_after. rewrite Hww. simpl. rewrite Hd1. reflexivity.
Qed.

(** A SHA-256 stream of 70 bytes resumed with 60 more in a new adapter. *)
Lemma checkpoint_resume_witness :
  ∃ s b s' s'' digest,
    hash_Writes (boringcrypto toy_block_fn) Sha256 (hash_New (boringcrypto toy_block_fn) Sha256)
      [replicate 70 Byte.x61] = Ok s
    ∧ hash_MarshalBinary Sha256 s = Ok (b, nil_error)
    ∧ hash_UnmarshalBinary Sha256 (hash_New (boringcrypto toy_block_fn) Sha256) b
      = Ok (s', nil_error)
    ∧ hash_Writes (boringcrypto toy_block_fn) Sha256 s' [replicate 60 Byte.x62] = Ok s''
    ∧ hash_Sum (boringcrypto toy_block_fn) Sha256 s'' [] = Ok (s'', [] ++ digest)
    ∧ digest_after toy_block_fn Sha256 ([replicate 70 Byte.x61] ++ [replicate 60 Byte.x62]) []
      = Ok ([] ++ digest).
Proof.
  apply (checkpoint_resume toy_block_fn Sha256 [replicate 70 Byte.x61] [replicate 60 Byte.x62]
           [] [] (hash_new Sha256) (hash_New (boringcrypto toy_block_fn) Sha256)).
  - intros Hw. discriminate Hw.
  - reflexivity.
Defined.
(** ** The byte-order helpers *)

Lemma be_word_be_value (l : list byte) : be_word (length l) (be_value l) = l.
Proof.
  induction l as [|c l IH] using rev_ind; [reflexivity|].
  rewrite length_app. simpl length. rewrite Nat.add_1_r, be_word_S, be_value_app.
  pose proof (byte_range c) as Hc.
  f_equal.
  - rewrite Z.shiftr_div_pow2 by lia. change (2 ^ 8) with 256.
    replace ((be_value l * 256 + byte.unsigned c) / 256) with (be_value l)
      by (Z.div_mod_to_equations; lia).
    exact IH.
  - f_equal. apply byte.unsigned_inj. rewrite byte_unsigned_of_Z.
    Z.div_mod_to_equations; lia.
Qed.

(** X6 — [putUint32] and [putUint64] panic on a slice shorter than 4 or 8
    bytes; otherwise they overwrite exactly its first 4 or 8 bytes with the
    value reduced to 32 or 64 bits, most significant byte first, and leave the
    rest of the slice as it was. *)
Theorem putUint_overwrites_prefix (xs : list byte) (s : Z) :
  putUint32 xs s
    = (if decide (4 ≤ length xs)%nat then Ok (be_word 4 s ++ drop 4 xs)
       else Panic "index out of range")
  ∧ putUint64 xs s
    = (if decide (8 ≤ length xs)%nat then Ok (be_word 8 s ++ drop 8 xs)
       else Panic "index out of range")
  ∧ be_value (be_word 4 s) = uint32 s
  ∧ be_value (be_word 8 s) = uint64 s.
Proof.
  split; [|split; [|split]].
  - destruct xs as [|b0 [|b1 [|b2 [|b3 rest]]]]; reflexivity.
  - destruct xs as [|b0 [|b1 [|b2 [|b3 [|b4 [|b5 [|b6 [|b7 rest]]]]]]]]; reflexivity.
  - apply (be_value_be_word 4).
  - apply (be_value_be_word 8).
Qed.

(** X7 — [consumeUint32] and [consumeUint64] panic on fewer than 4 or 8
    bytes and otherwise return the rest and the big-endian value of the first
    4 or 8 bytes; they undo [appendUint32] and [appendUint64], and appending
    the value they return gives back the bytes they consumed. *)
Theorem consume_append_inverse (b pre rest : list byte) (s : Z) :
  consumeUint32 b
    = (if decide (4 ≤ length b)%nat then Ok (drop 4 b, be_value (take 4 b))
       else Panic "index out of range")
  ∧ consumeUint64 b
    = (if decide (8 ≤ length b)%nat then Ok (drop 8 b, be_value (take 8 b))
       else Panic "index out of range")
  ∧ (∃ enc, appendUint32 pre s = Ok (pre ++ enc) ∧ length enc = 4%nat
            ∧ consumeUint32 (enc ++ rest) = Ok (rest, uint32 s))
  ∧ (∃ enc, appendUint64 pre s = Ok (pre ++ enc) ∧ length enc = 8%nat
            ∧ consumeUint64 (enc ++ rest) = Ok (rest, uint64 s))
  ∧ (∀ b' v, consumeUint32 b = Ok (b', v) →
       0 ≤ v < 2 ^ 32 ∧ appendUint32 pre v = Ok (pre ++ take 4 b) ∧ b = take 4 b ++ b')
  ∧ (∀ b' v, consumeUint64 b = Ok (b', v) →
       0 ≤ v < 2 ^ 64 ∧ appendUint64 pre v = Ok (pre ++ take 8 b) ∧ b = take 8 b ++ b').
Proof.
  assert (consumeUint32 b
    = (if decide (4 ≤ length b)%nat then Ok (drop 4 b, be_value (take 4 b))
       else Panic "index out of range")) as H32.
  { destruct (decide (4 ≤ length b)%nat) as [Hl|Hl]; [apply consumeUint32_ok, Hl|].
    destruct b as [|b0 [|b1 [|b2 [|b3 r]]]]; simpl in Hl; try lia; reflexivity. }
  assert (consumeUint64 b
    = (if decide (8 ≤ length b)%nat then Ok (drop 8 b, be_value (take 8 b))
       else Panic "index out of range")) as H64.
  { destruct (decide (8 ≤ length b)%nat) as [Hl|Hl]; [apply consumeUint64_ok, Hl|].
    destruct b as [|b0 [|b1 [|b2 [|b3 [|b4 [|b5 [|b6 [|b7 r]]]]]]]]; simpl in Hl; try lia;
      reflexivity. }
  split; [exact H32|]. split; [exact H64|].
  split.
  { exists (be_word 4 s). split; [apply appendUint32_ok|]. split; [apply length_be_word|].
    rewrite consumeUint32_ok by (rewrite length_app, length_be_word; lia).
    rewrite drop_app_length', take_app_length' by (rewrite length_be_word; reflexivity).
    rewrite (be_value_be_word 4). reflexivity. }
  split.
  { exists (be_word 8 s). split; [apply appendUint64_ok|]. split; [apply length_be_word|].
    rewrite consumeUint64_ok by (rewrite length_app, length_be_word; lia).
    rewrite drop_app_length', take_app_length' by (rewrite length_be_word; reflexivity).
    rewrite (be_value_be_word 8). reflexivity. }
  split.
  - intros b' v. rewrite H32. destruct (decide (4 ≤ length b)%nat) as [Hl|Hl]; [|discriminate].
    intros [= <- <-].
    pose proof (be_value_bound (take 4 b)) as Hb.
    rewrite length_take, Nat.min_l in Hb by lia.
    split; [exact Hb|]. split; [|symmetry; apply take_drop].
    rewrite appendUint32_ok. do 2 f_equal.
    rewrite <- (be_word_be_value (take 4 b)) at 2.
    rewrite length_take, Nat.min_l by lia. reflexivity.
  - intros b' v. rewrite H64. destruct (decide (8 ≤ length b)%nat) as [Hl|Hl]; [|discriminate].
    intros [= <- <-].
    pose proof (be_value_bound (take 8 b)) as Hb.
    rewrite length_take, Nat.min_l in Hb by lia.
    split; [exact Hb|]. split; [|symmetry; apply take_drop].
    rewrite appendUint64_ok. do 2 f_equal.
    rewrite <- (be_word_be_value (take 8 b)) at 2.
    rewrite length_take, Nat.min_l by lia. reflexivity.
Qed.
(** ** Snapshots across variants and receivers *)

Lemma magic_inj v v' : magic v = magic v' → v = v'.
Proof. destruct v, v'; simpl; intros [=]; reflexivity. Qed.

Lemma MarshalBinary_starts_with_magic v s b e :
  hash_MarshalBinary v s = Ok (b, e) → take 4 b = magic v ∧ 4 ≤ len b.
Proof.
  destruct s as [[hh dnl dnh dx dnx] o].
  destruct v; simpl;
    unfold sha1Hash_MarshalBinary, sha224Hash_MarshalBinary, sha256Hash_MarshalBinary,
      sha384Hash_MarshalBinary, sha512Hash_MarshalBinary;
    simpl ctx; cbn [h nl nh x nx]; cbv zeta; marshal_steps;
    unfold slice_to; (destruct (decide _) as [Hnx|Hnx]; [|discriminate]); rewrite bind_Ok;
    unfold reslice; (destruct (decide _) as [Hn|Hn]; [|discriminate]); rewrite bind_Ok;
    marshal_steps; intros [= <- _];
    rewrite <- !app_assoc in *; simpl app in *; unfold len in *;
    rewrite ?length_app, ?length_take, ?length_be_word in *; simpl length in *;
    (split; [|rewrite ?length_app, ?length_take, ?length_be_word; lia]);
    match goal with
    | |- take 4 (take ?n ?l ++ _) = _ =>
        rewrite (take_app_le (take n l)) by (rewrite length_take; simpl length; lia);
        rewrite take_take, (Nat.min_l 4 n) by lia; reflexivity
    end.
Qed.

(** X8 — A snapshot marshaled by one variant is refused by the
    [UnmarshalBinary] of every other variant with the identifier error,
    leaving the receiver as it was, also between the variants that share a
    size (SHA-224 and SHA-256, SHA-384 and SHA-512). *)
Theorem snapshot_refused_by_other_variant (v v' : alg) (s recv : shaHash)
    (b : list byte) (e : error) :
  v ≠ v' →
  hash_MarshalBinary v s = Ok (b, e) →
  hash_UnmarshalBinary v' recv b = Ok (recv, errors_New (identifier_error v')).
Proof.
  intros Hne Hm. apply MarshalBinary_starts_with_magic in Hm as [Hm _].
  apply UnmarshalBinary_identifier. right. rewrite Hm.
  intros Heq. apply Hne, magic_inj, Heq.
Qed.

(** A SHA-256 snapshot offered to a SHA-224 adapter. *)
Lemma snapshot_refused_by_other_variant_witness :
  ∃ b, hash_MarshalBinary Sha256 (hash_New (boringcrypto toy_block_fn) Sha256) = Ok (b, nil_error)
       ∧ hash_UnmarshalBinary Sha224 (hash_new Sha224) b
         = Ok (hash_new Sha224, errors_New "crypto/sha256: invalid hash state identifier").
Proof.
  eexists. split; [vm_compute; reflexivity|].
  apply (snapshot_refused_by_other_variant Sha256 Sha224
           (hash_New (boringcrypto toy_block_fn) Sha256) (hash_new Sha224) _ nil_error).
  - discriminate.
  - vm_compute. reflexivity.
Defined.

Lemma unpack_ranges v n :
  0 ≤ n < 2 ^ 64 →
  0 ≤ unpack_nl v n < 2 ^ word_bits v ∧ 0 ≤ unpack_nh v n < 2 ^ word_bits v
  ∧ 0 ≤ unpack_nx v n < Z.of_nat (block_len v)
  ∧ unpack_nl v n mod 8 = 0
  ∧ unpack_nx v n = n mod Z.of_nat (block_len v).
Proof.
  intros Hn.
  destruct v; unfold unpack_nl, unpack_nh, unpack_nx, shl64, uint64, uint32;
    simpl word_bits; simpl block_len;
    change (Z.of_nat 64) with 64; change (Z.of_nat 128) with 128;
    rewrite ?Z.shiftl_mul_pow2, ?Z.shiftr_div_pow2 by lia;
    repeat split; Z.div_mod_to_equations; lia.
Qed.

Lemma restored_HashContext v b :
  len b = marshaledSize v → HashContext v (restored v b) ∧ nl (restored v b) mod 8 = 0.
Proof.
  intros Hsz. rewrite marshaledSize_value in Hsz. unfold len in Hsz.
  set (n := be_value (drop (4 + word_count v * word_bytes v + block_len v) b)).
  assert (0 ≤ n < 2 ^ 64) as Hn.
  { pose proof (be_value_bound (drop (4 + word_count v * word_bytes v + block_len v) b)) as Hb.
    rewrite length_drop in Hb.
    replace (length b - (4 + word_count v * word_bytes v + block_len v))%nat with 8%nat in Hb
      by lia.
    exact Hb. }
  destruct (unpack_ranges v n Hn) as (Hnl & Hnh & Hnx & Hnl8 & _).
  pose proof (block_len_small v) as Hs.
  unfold HashContext, ctx_typed, restored. fold n. simpl.
  split; [|exact Hnl8].
  repeat split; try lia.
  - rewrite length_fmap, length_seq. reflexivity.
  - apply Forall_fmap, Forall_forall. intros i _. simpl.
    rewrite <- byte_pow.
    match goal with
    | |- 0 ≤ be_value ?l < _ =>
        pose proof (be_value_bound l) as Hb;
        assert (256 ^ Z.of_nat (length l) ≤ 256 ^ Z.of_nat (word_bytes v))
          by (apply Z.pow_le_mono_r; [lia|]; rewrite length_take; lia)
    end.
    lia.
  - rewrite length_take, length_drop. lia.
Qed.

(** X9 — Whatever bytes [UnmarshalBinary] accepts, the fields it writes make
    a HashContext: words in range, a count of bits that is a multiple of 8 and
    a buffer count below [BlockSize()].  The receiver's output array is kept,
    and the adapter can then be marshaled and written to without a panic;
    what [MarshalBinary] then returns has the length of the accepted bytes and
    is the same whatever adapter received them. *)
Theorem UnmarshalBinary_establishes_invariant (v : alg) (recv : shaHash) (b : list byte)
    (s' : shaHash) :
  length (h (ctx recv)) = word_count v →
  length (x (ctx recv)) = block_len v →
  hash_UnmarshalBinary v recv b = Ok (s', nil_error) →
  HashContext v (ctx s')
  ∧ nx (ctx s') < hash_BlockSize v s'
  ∧ nl (ctx s') mod 8 = 0
  ∧ out s' = out recv
  ∧ (∃ b', hash_MarshalBinary v s' = Ok (b', nil_error) ∧ len b' = len b
           ∧ ∀ recv', length (h (ctx recv')) = word_count v →
                      length (x (ctx recv')) = block_len v →
               ∃ t, hash_UnmarshalBinary v recv' b = Ok (t, nil_error)
                    ∧ hash_MarshalBinary v t = Ok (b', nil_error))
  ∧ (∀ block_fn p, ∃ t, hash_Write (boringcrypto block_fn) v s' p = Ok (t, (len p, nil_error))).
Proof.
  intros Hrh Hrx Hu.
  destruct (decide (len b < 4 ∨ take 4 b ≠ magic v)) as [Hid|Hid].
  { rewrite UnmarshalBinary_identifier in Hu by exact Hid. discriminate. }
  assert (4 ≤ len b ∧ take 4 b = magic v) as [Hl Hm].
  { split; [lia|]. destruct (decide (take 4 b = magic v)); [assumption|tauto]. }
  destruct (decide (len b ≠ marshaledSize v)) as [Hsz|Hsz].
  { rewrite UnmarshalBinary_size in Hu by assumption. discriminate. }
  assert (len b = marshaledSize v) as Hsz' by lia.
  rewrite UnmarshalBinary_restored in Hu by assumption. injection Hu as <-.
  simpl ctx. simpl out.
  destruct (restored_HashContext v b Hsz') as [Hc Hnl8].
  pose proof Hc as [(Hlh & _ & _ & _ & Hlx & Hnxr) Hnx].
  split; [exact Hc|].
  split; [replace (hash_BlockSize v _) with (Z.of_nat (block_len v)) by (destruct v; reflexivity);
          exact Hnx|].
  split; [exact Hnl8|]. split; [reflexivity|].
  split.
  { exists (snapshot v (restored v b)).
    split; [apply (MarshalBinary_snapshot v (set_ctx recv (restored v b)));
            simpl ctx; [assumption|assumption|lia]|].
    split; [rewrite snapshot_length by (try assumption; lia); symmetry; exact Hsz'|].
    intros recv' Hh' Hx'. exists (set_ctx recv' (restored v b)).
    split; [apply UnmarshalBinary_restored; assumption|].
    apply (MarshalBinary_snapshot v (set_ctx recv' (restored v b)));
      simpl ctx; [assumption|assumption|lia]. }
  intros block_fn p. rewrite hash_Write_unfold. case_bool_decide; [|eauto].
  simpl. unfold prim_Update. rewrite decide_True by lia.
  rewrite bool_decide_false by lia. eauto.
Qed.

(** A SHA-256 snapshot of all-ones bytes restores a buffer count of 63. *)
Lemma UnmarshalBinary_establishes_invariant_witness :
  ∃ s', hash_UnmarshalBinary Sha256 (hash_New (boringcrypto toy_block_fn) Sha256)
          (magic256 ++ replicate 96 Byte.xff ++ replicate 8 Byte.xff) = Ok (s', nil_error)
        ∧ nx (ctx s') < 64.
Proof.
  eexists. split; [vm_compute; reflexivity|].
  refine (proj1 (proj2 (UnmarshalBinary_establishes_invariant Sha256
            (hash_New (boringcrypto toy_block_fn) Sha256)
            (magic256 ++ replicate 96 Byte.xff ++ replicate 8 Byte.xff) _ eq_refl eq_refl _))).
  vm_compute. reflexivity.
Defined.
(** ** Decoding then encoding *)

Lemma pack_unpack v n :
  0 ≤ n < 2 ^ 64 → (word_bits v = 32 → n < 2 ^ 61) →
  pack_len v (unpack_nl v n) (unpack_nh v n) = n.
Proof.
  intros Hn H32.
  destruct (unpack_ranges v n Hn) as (Hnl & Hnh & _).
  rewrite pack_len_value by assumption.
  destruct v; try specialize (H32 eq_refl);
    unfold kept_high, unpack_nl, unpack_nh, shl64, uint64, uint32;
    simpl word_bits; simpl Z.sub;
    rewrite ?Z.shiftl_mul_pow2, ?Z.shiftr_div_pow2 by lia;
    Z.div_mod_to_equations; lia.
Qed.

Lemma concat_chunks (wb k : nat) (l : list byte) :
  length l = (k * wb)%nat →
  concat ((λ i : nat, be_word wb (be_value (take wb (drop (i * wb) l)))) <$> seq 0 k) = l.
Proof.
  revert l. induction k as [|k IH]; intros l Hl.
  - destruct l; [reflexivity|discriminate].
  - transitivity (take wb l ++ drop wb l); [|apply take_drop].
    simpl seq. rewrite fmap_cons. simpl concat. f_equal.
    + etransitivity; [|apply (be_word_be_value (take wb l))].
      rewrite length_take, Nat.min_l by (simpl in Hl; lia). reflexivity.
    + etransitivity; [|apply (IH (drop wb l)); rewrite length_drop; simpl in Hl; lia].
      f_equal. rewrite <- fmap_S_seq, <- list_fmap_compose.
      apply list_fmap_ext. intros i j _. simpl.
      rewrite drop_drop. reflexivity.
Qed.

Lemma snapshot_parts v b :
  take 4 b = magic v → len b = marshaledSize v →
  let W := (word_count v * word_bytes v)%nat in
  let n := be_value (drop (4 + W + block_len v) b) in
  let buffer := take (block_len v) (drop (4 + W) b) in
  let count := Z.to_nat (n mod Z.of_nat (block_len v)) in
  b = magic v ++ take W (drop 4 b) ++ buffer ++ be_word 8 n
  ∧ snapshot v (restored v b)
    = magic v ++ take W (drop 4 b)
      ++ (take count buffer ++ replicate (block_len v - count) Byte.x00)
      ++ be_word 8 (pack_len v (unpack_nl v n) (unpack_nh v n))
  ∧ 0 ≤ n < 2 ^ 64 ∧ length buffer = block_len v ∧ (count < block_len v)%nat.
Proof.
  intros Hm Hsz W n buffer count.
  rewrite marshaledSize_value in Hsz. unfold len in Hsz. fold W in Hsz.
  assert (length (drop (4 + W + block_len v) b) = 8%nat) as Hl8 by (rewrite length_drop; lia).
  assert (0 ≤ n < 2 ^ 64) as Hn.
  { pose proof (be_value_bound (drop (4 + W + block_len v) b)) as Hb. rewrite Hl8 in Hb. exact Hb. }
  destruct (unpack_ranges v n Hn) as (_ & _ & Hnx & _ & Hnxv).
  assert (length buffer = block_len v) as Hlb.
  { unfold buffer. rewrite length_take, length_drop. lia. }
  split; [|split; [|split; [exact Hn|split; [exact Hlb|lia]]]].
  - rewrite <- Hm. unfold buffer, n.
    rewrite <- Hl8 at 1. rewrite be_word_be_value.
    rewrite <- (take_drop 4 b) at 1. f_equal.
    rewrite <- (take_drop W (drop 4 b)) at 1. f_equal.
    rewrite drop_drop.
    rewrite <- (take_drop (block_len v) (drop (4 + W) b)) at 1. f_equal.
    rewrite drop_drop. reflexivity.
  - unfold snapshot, restored. cbn [h nl nh x nx]. fold W n buffer.
    rewrite Hnxv. fold count. f_equal. f_equal.
    rewrite <- list_fmap_compose.
    rewrite <- (concat_chunks (word_bytes v) (word_count v) (take W (drop 4 b)))
      by (rewrite length_take, length_drop; lia).
    f_equal. apply list_fmap_ext. intros i j Hj. apply lookup_seq in Hj as [-> Hlt].
    simpl. do 2 f_equal.
    change (S (S (S (S (i * word_bytes v))))) with (4 + i * word_bytes v)%nat.
    assert (i * word_bytes v + word_bytes v ≤ W)%nat by (unfold W; nia).
    rewrite (take_drop_commute (take W (drop 4 b))), take_take, Nat.min_l by lia.
    rewrite (take_drop_commute b _ 4), drop_drop.
    rewrite (take_drop_commute b). f_equal.
Qed.

Lemma be_word_inj n p q :
  0 ≤ p < 256 ^ Z.of_nat n → 0 ≤ q < 256 ^ Z.of_nat n → be_word n p = be_word n q → p = q.
Proof.
  intros Hp Hq Heq. apply (f_equal be_value) in Heq.
  rewrite !be_value_be_word, !Z.mod_small in Heq by assumption. exact Heq.
Qed.

(** X10 — Marshaling what [UnmarshalBinary] restored from accepted bytes
    [b] gives back the tag, the chaining values and the buffered bytes of [b];
    it gives back [b] itself exactly when the buffer of [b] is zero past the
    count and, for the 32-bit variants, the length field is below 2^61 (its
    top three bits are dropped on decode). *)
Theorem unmarshal_then_marshal (v : alg) (recv : shaHash) (b : list byte) (s' : shaHash) :
  length (h (ctx recv)) = word_count v →
  length (x (ctx recv)) = block_len v →
  hash_UnmarshalBinary v recv b = Ok (s', nil_error) →
  let n := be_value (drop (4 + word_count v * word_bytes v + block_len v) b) in
  let buffer := take (block_len v) (drop (4 + word_count v * word_bytes v) b) in
  let count := Z.to_nat (n mod Z.of_nat (block_len v)) in
  (∃ b', hash_MarshalBinary v s' = Ok (b', nil_error)
         ∧ take (4 + word_count v * word_bytes v + count) b'
           = take (4 + word_count v * word_bytes v + count) b)
  ∧ (hash_MarshalBinary v s' = Ok (b, nil_error)
     ↔ drop count buffer = replicate (block_len v - count) Byte.x00
       ∧ (word_bits v = 32 → n < 2 ^ 61)).
Proof.
  intros Hrh Hrx Hu.
  destruct (decide (len b < 4 ∨ take 4 b ≠ magic v)) as [Hid|Hid].
  { rewrite UnmarshalBinary_identifier in Hu by exact Hid. discriminate. }
  assert (4 ≤ len b ∧ take 4 b = magic v) as [Hl Hm].
  { split; [lia|]. destruct (decide (take 4 b = magic v)); [assumption|tauto]. }
  destruct (decide (len b ≠ marshaledSize v)) as [Hsz|Hsz].
  { rewrite UnmarshalBinary_size in Hu by assumption. discriminate. }
  assert (len b = marshaledSize v) as Hsz' by lia.
  rewrite UnmarshalBinary_restored in Hu by assumption. injection Hu as <-.
  destruct (restored_HashContext v b Hsz') as [[(Hlh & _ & _ & _ & Hlx & Hnxr) Hnx] _].
  pose proof (MarshalBinary_snapshot v (set_ctx recv (restored v b)) Hlh Hlx ltac:(simpl ctx; lia))
    as Hms.
  simpl ctx in Hms. rewrite Hms.
  destruct (snapshot_parts v b Hm Hsz') as (Hb & Hs & Hn & Hlb & Hc).
  cbv zeta in Hb, Hs, Hn, Hlb, Hc |- *.
  set (W := (word_count v * word_bytes v)%nat) in *.
  set (n := be_value (drop (4 + W + block_len v) b)) in *.
  set (buffer := take (block_len v) (drop (4 + W) b)) in *.
  set (count := Z.to_nat (n mod Z.of_nat (block_len v))) in *.
  assert (length (magic v) = 4%nat) as Hlm by (destruct v; reflexivity).
  assert (length (take W (drop 4 b)) = W) as HlW.
  { rewrite length_take, length_drop. rewrite marshaledSize_value in Hsz'. unfold len in Hsz'.
    fold W in Hsz'. lia. }
  destruct (unpack_ranges v n Hn) as (Hunl & Hunh & _).
  split.
  - eexists. split; [reflexivity|]. rewrite Hs.
    etransitivity;
      [|symmetry; exact (f_equal (take (4 + W + count)) Hb)].
    rewrite <- !Nat.add_assoc.
    rewrite !(take_app_add' (magic v)) by (symmetry; exact Hlm). f_equal.
    rewrite !(take_app_add' (take W (drop 4 b))) by (symmetry; exact HlW). f_equal.
    rewrite <- app_assoc.
    rewrite take_app_length' by (rewrite length_take; lia).
    rewrite take_app_le by lia. reflexivity.
  - split.
    + intros [= Heq]. rewrite Hs in Heq. pose proof (eq_trans Heq Hb) as Heq'. clear Heq.
      apply app_inv_head in Heq'. apply app_inv_head in Heq'.
      apply app_inj_1 in Heq' as [Hbuf Hlen];
        [|rewrite length_app, length_take, length_replicate; lia].
      split.
      * pose proof (eq_trans Hbuf (eq_sym (take_drop count buffer))) as Htd.
        apply app_inv_head in Htd. symmetry. exact Htd.
      * intros H32. apply be_word_inj in Hlen;
          [|apply (pack_len_range v); assumption|exact Hn].
        rewrite <- Hlen. rewrite pack_len_value by assumption.
        destruct v; try discriminate H32; unfold kept_high; simpl word_bits in *; simpl Z.sub;
          Z.div_mod_to_equations; lia.
    + intros [Hbuf H32]. do 2 f_equal. rewrite Hs.
      etransitivity; [|symmetry; exact Hb].
      do 2 f_equal. f_equal.
      * rewrite <- Hbuf. apply take_drop.
      * rewrite pack_unpack by assumption. reflexivity.
Qed.

(** The snapshot of a new SHA-512 adapter is re-encoded to itself. *)
Lemma unmarshal_then_marshal_witness :
  ∃ b, hash_MarshalBinary Sha512 (hash_New (boringcrypto toy_block_fn) Sha512) = Ok (b, nil_error)
       ∧ ∃ s', hash_UnmarshalBinary Sha512 (hash_new Sha512) b = Ok (s', nil_error)
               ∧ hash_MarshalBinary Sha512 s' = Ok (b, nil_error).
Proof.
  eexists. split; [vm_compute; reflexivity|].
  eexists. split; [vm_compute; reflexivity|].
  refine (proj2 (proj2 (unmarshal_then_marshal Sha512 (hash_new Sha512) _ _
                          eq_refl eq_refl _)) _).
  - vm_compute. reflexivity.
  - split; [vm_compute; reflexivity|]. intros Hw. discriminate Hw.
Defined.
